(** * The 3scale Istio adapter: authorization pipeline

    A shallow embedding of [pkg/threescale/threescale.go]: the handler
    [HandleAuthorization], the decision function [isAuthorized], the
    mapping-rule matcher [generateMetrics] and the translation of backend
    answers [apiRespConverter], followed by the properties the adapter's
    specification states about them.

    Go strings are byte strings, modelled as [string]; Go maps are finite
    maps ([gmap]); a Go [error] is modelled by its message, and a value of an
    interface or pointer type that may be [nil] by an [option]. Calls that
    leave the process (client construction, the proxy-configuration fetch,
    the backend AuthRep call) are nodes of a program tree, so that which
    calls a request makes can be read off its run. Logging is left out. *)

From Stdlib Require Import ZArith.
From stdpp Require Import base strings gmap list pretty.

Local Open Scope Z_scope.

(** ** Errors and gRPC statuses *)

(** A Go [error], identified with the text of its [Error()] method. *)
Definition error : Type := string.

(** [google.rpc.Code], with the numbering of the protocol. *)
Inductive rpc_Code : Type :=
| OK | CANCELLED | UNKNOWN | INVALID_ARGUMENT | DEADLINE_EXCEEDED
| NOT_FOUND | ALREADY_EXISTS | PERMISSION_DENIED | RESOURCE_EXHAUSTED
| FAILED_PRECONDITION | ABORTED | OUT_OF_RANGE | UNIMPLEMENTED
| INTERNAL | UNAVAILABLE | DATA_LOSS | UNAUTHENTICATED.

Definition rpc_Code_value (c : rpc_Code) : Z :=
  match c with
  | OK => 0 | CANCELLED => 1 | UNKNOWN => 2 | INVALID_ARGUMENT => 3
  | DEADLINE_EXCEEDED => 4 | NOT_FOUND => 5 | ALREADY_EXISTS => 6
  | PERMISSION_DENIED => 7 | RESOURCE_EXHAUSTED => 8
  | FAILED_PRECONDITION => 9 | ABORTED => 10 | OUT_OF_RANGE => 11
  | UNIMPLEMENTED => 12 | INTERNAL => 13 | UNAVAILABLE => 14
  | DATA_LOSS => 15 | UNAUTHENTICATED => 16
  end.

#[global] Instance rpc_Code_eq_dec : EqDecision rpc_Code.
Proof. solve_decision. Defined.

(** [rpc.Status]: the code and the message (the adapter never sets details). *)
Record rpc_Status : Type := mk_rpc_Status {
  Code : rpc_Code;
  Message : string
}.

(** The constructors of Mixer's [status] package used by the adapter. *)
Definition status_OK : rpc_Status := mk_rpc_Status OK "".
Definition WithInternal (msg : string) : rpc_Status := mk_rpc_Status INTERNAL msg.
Definition WithInvalidArgument (msg : string) : rpc_Status := mk_rpc_Status INVALID_ARGUMENT msg.
Definition WithPermissionDenied (msg : string) : rpc_Status := mk_rpc_Status PERMISSION_DENIED msg.
Definition WithUnavailable (msg : string) : rpc_Status := mk_rpc_Status UNAVAILABLE msg.
Definition WithUnknown (msg : string) : rpc_Status := mk_rpc_Status UNKNOWN msg.

(** [v1beta1.CheckResult]; [ValidDuration] is a [time.Duration] in
    nanoseconds, [ValidUseCount] an [int32]. *)
Record CheckResult : Type := mk_CheckResult {
  Status : rpc_Status;
  ValidDuration : Z;
  ValidUseCount : Z
}.

(** The zero value that [var result v1beta1.CheckResult] declares. *)
Definition CheckResult_zero : CheckResult := mk_CheckResult status_OK 0 0.

Definition time_Second : Z := 1000000000.

(** ** Constants of the package *)

Definition pathErr : string := "missing request path".
Definition unauthenticatedErr : string :=
  "no auth credentials provided or provided in invalid location".
Definition openIDTypeIdentifier : string := "oauth".
Definition AppIDAttributeKey : string := "app_id".
Definition AppKeyAttributeKey : string := "app_key".
Definition OIDCAttributeKey : string := "client_id".

(** ** The request, as the authorization template delivers it *)

(** An attribute value: a one-of, of which only the string case is read. *)
Inductive Value : Type :=
| Value_StringValue (s : string)
| Value_Int64Value (n : Z)
| Value_BoolValue (b : bool)
| Value_Other.

(** The generated getter: safe on a [nil] receiver (here the [None] of a
    failed map lookup) and empty for every case but the string one. *)
Definition GetStringValue (v : option Value) : string :=
  match v with
  | Some (Value_StringValue s) => s
  | _ => ""
  end.

Record SubjectMsg : Type := mk_SubjectMsg {
  User : string;
  Groups : string;
  Properties : gmap string Value
}.

Record ActionMsg : Type := mk_ActionMsg {
  Namespace : string;
  Service : string;
  Method : string;
  Path : string
}.

(** The source tests [Subject] against [nil] and reads [Action] (like the
    instance itself) without a test: the subject is optional, the instance
    and its action block are taken as present. *)
Record InstanceMsg : Type := mk_InstanceMsg {
  Name : string;
  Subject : option SubjectMsg;
  Action : ActionMsg
}.

(** [google.protobuf.Any]: the adapter configuration as Mixer ships it. *)
Record Any : Type := mk_Any {
  TypeUrl : string;
  Any_Value : list Byte.byte
}.

Record HandleAuthorizationRequest : Type := mk_HandleAuthorizationRequest {
  Instance : InstanceMsg;
  AdapterConfig : option Any;
  DedupId : string
}.

(** [config.Params] of [config/config.pb.go]. *)
Record Params : Type := mk_Params {
  ServiceId : string;
  SystemUrl : string;
  BackendUrl : string;
  AccessToken : string;
  ServiceToken : string
}.

(** ** The proxy configuration served by the 3scale system API

    Only the fields the adapter reads. *)

Record ProxyRule : Type := mk_ProxyRule {
  HTTPMethod : string;
  Pattern : string;
  MetricSystemName : string;
  Delta : Z
}.

Record Backend : Type := mk_Backend {
  Endpoint : string;
  Host : string
}.

Record ContentProxy : Type := mk_ContentProxy {
  Proxy_Backend : Backend;
  ProxyRules : list ProxyRule
}.

Record Content : Type := mk_Content {
  BackendVersion : string;
  BackendAuthenticationType : string;
  BackendAuthenticationValue : string;
  Proxy : ContentProxy
}.

Record ProxyConfig : Type := mk_ProxyConfig {
  ProxyConfig_Content : Content
}.

Record ProxyConfigElement : Type := mk_ProxyConfigElement {
  PCE_ProxyConfig : ProxyConfig
}.

(** ** The backend request and response *)

(** [api.Metrics]: a Go [map[string]int] from metric name to usage. *)
Abbreviation Metrics := (gmap string Z).

(** Modelled from the spec: the method [Add] of [api.Metrics] belongs to the
    3scale client library, which is not part of this repository's sources.
    "Multiple matching rules for the same metric name sum their deltas rather
    than overwrite": the value is added to the one already stored under the
    name, and stored as it is under a new name. Usage values are taken as
    mathematical integers. *)
Definition Metrics_Add (m : Metrics) (name : string) (value : Z) : Metrics :=
  match m !! name with
  | Some currentValue => <[name := currentValue + value]> m
  | None => <[name := value]> m
  end.

Record ClientAuth : Type := mk_ClientAuth {
  Auth_Type : string;
  Auth_Value : string
}.

Record api_Params : Type := mk_api_Params {
  AppID : string;
  AppKey : string;
  UserKey : string
}.

Record Transaction : Type := mk_Transaction {
  Tx_Metrics : Metrics;
  Tx_Params : api_Params
}.

Record Request : Type := mk_Request {
  Auth : ClientAuth;
  ServiceID : string;
  Req_Transaction : Transaction
}.

Record Response : Type := mk_Response {
  Reason : string;
  Success : bool
}.

(** ** The program trees

    Everything below is parametric in what the adapter takes from outside:
    the handles of the two HTTP clients and of the proxy-configuration cache,
    Go's [regexp.MatchString] and [strings.ToUpper], and the generated
    protobuf decoder [Params.Unmarshal]. *)

Section Adapter.

Variables ThreeScaleClient Client ProxyConfigCache : Type.

(** [regexp.MatchString pattern s]: the pair [(matched, err)], where [err]
    is not [nil] exactly when [pattern] does not compile. *)
Variable regexp_MatchString : string → string → bool * option error.

Variable strings_ToUpper : string → string.

(** The decoded parameters and the decoding error, if any. *)
Variable Params_Unmarshal : list Byte.byte → Params * option error.

(** The calls to the adapter's collaborators, indexed by what they return. *)
Inductive Event : Type → Type :=
| BuildSystemClient (systemURL : string) :
    Event (ThreeScaleClient * option error)
| BuildBackendClient (backendURL : string) :
    Event (Client * option error)
| SystemCache_Get (cache : ProxyConfigCache) (cfg : Params) (c : ThreeScaleClient) :
    Event (ProxyConfigElement * option error)
| GetFromRemote (cfg : Params) (c : ThreeScaleClient) :
    Event (ProxyConfigElement * option error)
| AuthRep (req : Request) (c : Client) :
    Event (Response * option error).

(** A program returns, panics (a nil dereference), or calls a collaborator
    and goes on with the answer. *)
Inductive Prog (R : Type) : Type :=
| Ret (r : R)
| Panic
| Call {X : Type} (e : Event X) (k : X → Prog R).

Arguments Ret {R} r.
Arguments Panic {R}.
Arguments Call {R X} e k.

Fixpoint Prog_bind {A B : Type} (f : A → Prog B) (p : Prog A) : Prog B :=
  match p with
  | Ret a => f a
  | Panic => Panic
  | Call e k => Call e (λ x, Prog_bind f (k x))
  end.

#[local] Instance Prog_mbind : MBind Prog := @Prog_bind.

Definition trigger {X : Type} (e : Event X) : Prog X := Call e Ret.

(** A pure step that may dereference nil. *)
Definition lift {A : Type} (o : option A) : Prog A :=
  match o with
  | Some a => Ret a
  | None => Panic
  end.

(** A call that was made, without its answer. *)
Record Called : Type := mk_Called {
  Called_type : Type;
  Called_event : Event Called_type
}.

(** Running a program against an environment [h] that answers each call
    from its own state [W]: the result, the calls made in order, and the
    final state of the environment; [None] when the program panics. *)
Fixpoint run {W R : Type} (h : ∀ X, Event X → W → X * W) (p : Prog R) (w : W) :
    option (R * list Called * W) :=
  match p with
  | Ret r => Some (r, [], w)
  | Panic => None
  | Call e k =>
      let '(x, w') := h _ e w in
      match run h (k x) w' with
      | Some (r, t, w'') => Some (r, mk_Called _ e :: t, w'')
      | None => None
      end
  end.

(** ** The adapter *)

(** [AdapterConfig] and [Threescale], reduced to what a request reads: the
    cache, when one is configured. The client builder and the backend are
    reached through the calls above. *)
Record AdapterConfig_ : Type := mk_AdapterConfig {
  systemCache : option ProxyConfigCache
}.

Record Threescale : Type := mk_Threescale {
  conf : AdapterConfig_
}.

(** [rpcStatusErrorHandler]: [None] stands for the panic of [err.Error()]
    on a nil [err], reached when the message is empty and no error is given. *)
Definition rpcStatusErrorHandler (userFacingErrMsg : string)
    (fn : string → rpc_Status) (err : option error) :
    option (rpc_Status * option error) :=
  let err :=
    if decide (userFacingErrMsg ≠ "") then
      let errMsg :=
        match err with
        | Some e => "- " +:+ e
        | None => ""
        end in
      Some (userFacingErrMsg +:+ " " +:+ errMsg)
    else err in
  match err with
  | Some e => Some (fn e, Some e)
  | None => None
  end.

Definition parseConfigParams (r : HandleAuthorizationRequest) :
    option Params * option error :=
  match AdapterConfig r with
  | None => (None, Some "internal error - adapter config is not available")
  | Some any =>
      match Params_Unmarshal (Any_Value any) with
      | (_, Some _) =>
          (None, Some "internal error - unable to unmarshal adapter config")
      | (cfg, None) => (Some cfg, None)
      end
  end.

Definition extractProxyConf (s : Threescale) (cfg : Params) (c : ThreeScaleClient) :
    Prog (ProxyConfigElement * option error) :=
  match systemCache (conf s) with
  | Some cache => trigger (SystemCache_Get cache cfg c)
  | None => trigger (GetFromRemote cfg c)
  end.

Definition rule_matches (path method : string) (pr : ProxyRule) : bool :=
  match regexp_MatchString (Pattern pr) path with
  | (match_, None) =>
      match_ && bool_decide (strings_ToUpper (HTTPMethod pr) = strings_ToUpper method)
  | (_, Some _) => false
  end.

Definition generateMetrics (path method : string) (conf : ProxyConfig) : Metrics :=
  foldl (λ metrics pr,
           if rule_matches path method pr
           then Metrics_Add metrics (MetricSystemName pr) (Delta pr)
           else metrics)
        ∅ (ProxyRules (Proxy (ProxyConfig_Content conf))).

Definition apiRespConverter (resp : Response) (e : option error) : Prog rpc_Status :=
  match e with
  | Some _ =>
      '(status, _) ← lift (rpcStatusErrorHandler "error calling 3scale backend" WithUnknown e);
      Ret status
  | None =>
      if negb (Success resp) then Ret (WithPermissionDenied (Reason resp))
      else Ret status_OK
  end.

(** The three credentials read from the request (lines 161 to 175):
    [(appID, appKey, userKey)], all empty when there is no subject. *)
Definition credentials (request : InstanceMsg) (proxyConf : ProxyConfig) :
    string * string * string :=
  match Subject request with
  | Some subject =>
      let appIdentifierKey :=
        if decide (BackendVersion (ProxyConfig_Content proxyConf) = openIDTypeIdentifier)
        then OIDCAttributeKey
        else AppIDAttributeKey in
      (GetStringValue (Properties subject !! appIdentifierKey),
       GetStringValue (Properties subject !! AppKeyAttributeKey),
       User subject)
  | None => ("", "", "")
  end.

Definition isAuthorized (svcID : string) (request : InstanceMsg)
    (proxyConf : ProxyConfig) (client : Client) : Prog rpc_Status :=
  if decide (Path (Action request) = "") then Ret (WithInvalidArgument pathErr)
  else
    let '(appID, appKey, userKey) := credentials request proxyConf in
    if decide (appID = "" ∧ userKey = "") then
      Ret (WithPermissionDenied unauthenticatedErr)
    else
      let metrics :=
        generateMetrics (Path (Action request)) (Method (Action request)) proxyConf in
      if decide (size metrics = 0%nat) then
        Ret (WithPermissionDenied
               ("no matching mapping rule for request with method "
                +:+ Method (Action request) +:+ " and path " +:+ Path (Action request)))
      else
        let authRepRequest := {|
          Auth := {|
            Auth_Type := BackendAuthenticationType (ProxyConfig_Content proxyConf);
            Auth_Value := BackendAuthenticationValue (ProxyConfig_Content proxyConf) |};
          ServiceID := svcID;
          Req_Transaction := {|
            Tx_Metrics := metrics;
            Tx_Params := {| AppID := appID; AppKey := appKey; UserKey := userKey |} |} |} in
        '(resp, e) ← trigger (AuthRep authRepRequest client);
        apiRespConverter resp e.

Definition with_Status (result : CheckResult) (st : rpc_Status) : CheckResult :=
  mk_CheckResult st (ValidDuration result) (ValidUseCount result).

Definition with_ServiceId (cfg : Params) (id : string) : Params :=
  mk_Params id (SystemUrl cfg) (BackendUrl cfg) (AccessToken cfg) (ServiceToken cfg).

(** The label [out]: the handler returns the result and the last error. *)
Definition out (fail : option (rpc_Status * option error)) (result : CheckResult) :
    Prog (CheckResult * option error) :=
  '(st, err) ← lift fail;
  Ret (with_Status result st, err).

Definition HandleAuthorization (s : Threescale) (r : HandleAuthorizationRequest) :
    Prog (CheckResult * option error) :=
  let result := CheckResult_zero in
  let '(cfg, err) := parseConfigParams r in
  if decide (err ≠ None) then
    out (rpcStatusErrorHandler "" WithInternal err) result
  else
    cfg ← lift cfg;
    let serviceId :=
      if decide (ServiceId cfg = "") then
        if decide (Service (Action (Instance r)) = "") then None
        else Some (Service (Action (Instance r)))
      else Some (ServiceId cfg) in
    match serviceId with
    | None =>
        out (rpcStatusErrorHandler "error. No Service ID provided" WithInvalidArgument err) result
    | Some serviceId =>
        let cfg := with_ServiceId cfg serviceId in
        '(systemClient, err) ← trigger (BuildSystemClient (SystemUrl cfg));
        if decide (err ≠ None) then
          out (rpcStatusErrorHandler "error building HTTP client for 3scale system"
                 WithInvalidArgument err) result
        else
          '(proxyConfElement, err) ← extractProxyConf s cfg systemClient;
          if decide (err ≠ None) then
            out (rpcStatusErrorHandler
                   "currently unable to fetch required data from 3scale system"
                   WithUnavailable err) result
          else
            let backendURL :=
              if decide (BackendUrl cfg = "")
              then Endpoint (Proxy_Backend (Proxy (ProxyConfig_Content
                                                     (PCE_ProxyConfig proxyConfElement))))
              else BackendUrl cfg in
            '(backendClient, err) ← trigger (BuildBackendClient backendURL);
            if decide (err ≠ None) then
              out (rpcStatusErrorHandler "error creating 3scale backend client"
                     WithInvalidArgument err) result
            else
              status ← isAuthorized (ServiceId cfg) (Instance r)
                         (PCE_ProxyConfig proxyConfElement) backendClient;
              let result := with_Status result status in
              let result := mk_CheckResult (Status result) (0 * time_Second) (-1) in
              Ret (result, err)
    end.

End Adapter.

Arguments Ret {ThreeScaleClient Client ProxyConfigCache R} r.
Arguments Panic {ThreeScaleClient Client ProxyConfigCache R}.
Arguments Call {ThreeScaleClient Client ProxyConfigCache R X} e k.
Arguments BuildSystemClient {ThreeScaleClient Client ProxyConfigCache} systemURL.
Arguments BuildBackendClient {ThreeScaleClient Client ProxyConfigCache} backendURL.
Arguments SystemCache_Get {ThreeScaleClient Client ProxyConfigCache} cache cfg c.
Arguments GetFromRemote {ThreeScaleClient Client ProxyConfigCache} cfg c.
Arguments AuthRep {ThreeScaleClient Client ProxyConfigCache} req c.
Arguments mk_Called {ThreeScaleClient Client ProxyConfigCache Called_type} Called_event.
Arguments Called_event {ThreeScaleClient Client ProxyConfigCache} c.
Arguments run {ThreeScaleClient Client ProxyConfigCache W R} h p w.
Arguments trigger {ThreeScaleClient Client ProxyConfigCache X} e.
Arguments lift {ThreeScaleClient Client ProxyConfigCache A} o.
Arguments Prog_bind {ThreeScaleClient Client ProxyConfigCache A B} f p.
Arguments out {ThreeScaleClient Client ProxyConfigCache} fail result.
Arguments apiRespConverter {ThreeScaleClient Client ProxyConfigCache} resp e.
Arguments isAuthorized {ThreeScaleClient Client ProxyConfigCache}
  regexp_MatchString strings_ToUpper svcID request proxyConf client.
Arguments extractProxyConf {ThreeScaleClient Client ProxyConfigCache} s cfg c.
Arguments HandleAuthorization {ThreeScaleClient Client ProxyConfigCache}
  regexp_MatchString strings_ToUpper Params_Unmarshal s r.
Arguments mk_AdapterConfig {ProxyConfigCache} systemCache.
Arguments mk_Threescale {ProxyConfigCache} conf.
Arguments systemCache {ProxyConfigCache} a.
Arguments conf {ProxyConfigCache} t.

(** ** What a trace shows *)

(** The requests of the AuthRep calls of a trace. *)
Definition authRep_requests {T C P : Type} (t : list (@Called T C P)) : list Request :=
  omap (λ c, match Called_event c with
             | AuthRep req _ => Some req
             | _ => None
             end) t.

(** The service ids that the calls of a trace carry: the one of the
    configuration handed to the proxy-configuration fetch and the one of the
    AuthRep request. *)
Definition service_ids_used {T C P : Type} (t : list (@Called T C P)) : list string :=
  omap (λ c, match Called_event c with
             | SystemCache_Get _ cfg _ => Some (ServiceId cfg)
             | GetFromRemote cfg _ => Some (ServiceId cfg)
             | AuthRep req _ => Some (ServiceID req)
             | _ => None
             end) t.

(** ** Intermediate values of the handler *)

(** The configuration as the handler uses it from line 77 on, once the
    service id is settled (lines 69 to 75): the configured service id, or the
    one of the request's action when none is configured. *)
Definition resolved (cfg : Params) (r : HandleAuthorizationRequest) : Params :=
  with_ServiceId cfg
    (if decide (ServiceId cfg = "") then Service (Action (Instance r)) else ServiceId cfg).

(** The backend URL of lines 89 to 92: the configured one, or the endpoint
    that the proxy configuration names. *)
Definition backendURL_of (cfg : Params) (pce : ProxyConfigElement) : string :=
  if decide (BackendUrl cfg = "")
  then Endpoint (Proxy_Backend (Proxy (ProxyConfig_Content (PCE_ProxyConfig pce))))
  else BackendUrl cfg.

(** The one call of [extractProxyConf]: to the cache when there is one, to
    the system API otherwise. *)
Definition extractProxyConf_call {T C P : Type} (s : Threescale P) (cfg : Params) (c : T) :
    @Event T C P (ProxyConfigElement * option error) :=
  match systemCache (conf s) with
  | Some cache => SystemCache_Get cache cfg c
  | None => GetFromRemote cfg c
  end.

(** [sub] occurs in [s]. *)
Definition contains (s sub : string) : Prop :=
  ∃ before after : string, s = before +:+ sub +:+ after.

Definition sum_deltas (ds : list Z) : Z := foldr Z.add 0 ds.

(** The entry that a list of deltas leaves under a metric name: none when
    the list is empty, their sum otherwise. *)
Definition accumulated (ds : list Z) : option Z :=
  match ds with
  | [] => None
  | _ :: _ => Some (sum_deltas ds)
  end.

(** The deltas of the rules that match the request and count on [name], in
    the order of the configuration. *)
Definition matching_deltas (regexp_MatchString : string → string → bool * option error)
    (strings_ToUpper : string → string) (path method name : string)
    (rules : list ProxyRule) : list Z :=
  Delta <$> filter (λ pr, rule_matches regexp_MatchString strings_ToUpper path method pr = true
                          ∧ MetricSystemName pr = name) rules.

(** ** A sample environment

    Used to run the adapter on concrete requests. *)

(** [strings.ToUpper] on ASCII strings, where Go maps ['a'..'z'] bytewise. *)
Definition ascii_upper (c : Ascii.ascii) : Ascii.ascii :=
  let n := Ascii.nat_of_ascii c in
  if ((97 <=? n) && (n <=? 122))%nat then Ascii.ascii_of_nat (n - 32) else c.

Fixpoint ascii_ToUpper (s : string) : string :=
  match s with
  | EmptyString => EmptyString
  | String c s' => String (ascii_upper c) (ascii_ToUpper s')
  end.

Fixpoint occurs_in (sub s : string) : bool :=
  String.prefix sub s ||
  match s with
  | EmptyString => false
  | String _ s' => occurs_in sub s'
  end.

(** [regexp.MatchString] on the patterns of the examples: ["("] does not
    compile, and a pattern without metacharacters matches wherever it occurs
    in the subject. *)
Definition literal_MatchString (pattern s : string) : bool * option error :=
  if decide (pattern = "(")
  then (false, Some "error parsing regexp: missing closing ): `(`")
  else (occurs_in pattern s, None).

(** A decoder that yields the same parameters for every input; only used
    to run examples. *)
Definition sample_Unmarshal (cfg : Params) (_ : list Byte.byte) : Params * option error :=
  (cfg, None).

(** An environment in which every client builds, the system API serves
    [pce] and the backend answers [answer]. *)
Definition sample_env (pce : ProxyConfigElement) (answer : Response * option error)
    (X : Type) (e : @Event unit unit unit X) (w : unit) : X * unit :=
  match e in Event _ _ _ X return X * unit with
  | BuildSystemClient _ => ((tt, None), w)
  | BuildBackendClient _ => ((tt, None), w)
  | SystemCache_Get _ _ _ => ((pce, None), w)
  | GetFromRemote _ _ => ((pce, None), w)
  | AuthRep _ _ => (answer, w)
  end.

(** An environment in which a stage fails when an error is given for it:
    the construction of the system client, the fetch of the proxy
    configuration, the construction of the backend client. *)
Definition faulty_env (system fetch backend : option error) (pce : ProxyConfigElement)
    (answer : Response * option error)
    (X : Type) (e : @Event unit unit unit X) (w : unit) : X * unit :=
  match e in Event _ _ _ X return X * unit with
  | BuildSystemClient _ => ((tt, system), w)
  | BuildBackendClient _ => ((tt, backend), w)
  | SystemCache_Get _ _ _ => ((pce, fetch), w)
  | GetFromRemote _ _ => ((pce, fetch), w)
  | AuthRep _ _ => (answer, w)
  end.

Definition widgets_rule : ProxyRule :=
  {| HTTPMethod := "GET"; Pattern := "/v1/widgets"; MetricSystemName := "hits"; Delta := 1 |}.

Definition sample_conf (version : string) (rules : list ProxyRule) : ProxyConfig :=
  {| ProxyConfig_Content := {|
       BackendVersion := version;
       BackendAuthenticationType := "service_token";
       BackendAuthenticationValue := "secret";
       Proxy := {| Proxy_Backend := {| Endpoint := "https://su1.3scale.net";
                                       Host := "su1.3scale.net" |};
                   ProxyRules := rules |} |} |}.

Definition granted : Response * option error := (mk_Response "" true, None).

Definition widgets_pce : ProxyConfigElement :=
  mk_ProxyConfigElement (sample_conf "1" [widgets_rule]).

Definition sample_subject (user : string) (props : list (string * Value)) : SubjectMsg :=
  {| User := user; Groups := ""; Properties := list_to_map props |}.

Definition sample_instance (subject : option SubjectMsg) (service method path : string) :
    InstanceMsg :=
  {| Name := "threescale-authorization";
     Subject := subject;
     Action := {| Namespace := "default"; Service := service; Method := method; Path := path |} |}.

Definition sample_params (serviceId : string) : Params :=
  {| ServiceId := serviceId; SystemUrl := "https://example-admin.3scale.net";
     BackendUrl := ""; AccessToken := "token"; ServiceToken := "" |}.

Definition sample_request (inst : InstanceMsg) : HandleAuthorizationRequest :=
  {| Instance := inst; AdapterConfig := Some (mk_Any "" []); DedupId := "" |}.

Definition no_cache : @Threescale unit := mk_Threescale (mk_AdapterConfig None).

(** * The adapter configuration on the wire

    [config/config.pb.go], the generated protobuf code of [Params]: the
    size, the encoder and the decoder with its field skipper. Unsigned 64-bit
    values are in [N], values of type [int] (64 bits) and [int32] in [Z] with
    the wrap-around written where the source can overflow; an index that has
    just been used to read or write a slice cannot. *)

Module config.

(** How a call ends: with a value, with a run-time panic (an index or a
    slice bound out of range, or an explicit [panic]), or because the model
    ran out of the steps it was given. *)
Inductive outcome (A : Type) : Type :=
| Done (a : A)
| Crash
| OutOfFuel.
Arguments Done {A} a.
Arguments Crash {A}.
Arguments OutOfFuel {A}.

#[export] Instance outcome_bind : MBind outcome := λ A B f o,
  match o with
  | Done a => f a
  | Crash => Crash
  | OutOfFuel => OutOfFuel
  end.

(** Conversions to the fixed-width integer types; [int] has 64 bits. *)
Definition uint64 (x : N) : N := (x mod 2 ^ 64)%N.
Definition int (z : Z) : Z := (z + 2 ^ 63) mod 2 ^ 64 - 2 ^ 63.
Definition int32 (z : Z) : Z := (z + 2 ^ 31) mod 2 ^ 32 - 2 ^ 31.
Definition uint8 (x : N) : Byte.byte := default Byte.x00 (Byte.of_N (x mod 256)).

Definition len (dAtA : list Byte.byte) : Z := Z.of_nat (length dAtA).
Definition len_string (s : string) : Z := Z.of_nat (String.length s).

(** [dAtA[i]] *)
Definition load (dAtA : list Byte.byte) (i : Z) : outcome Byte.byte :=
  if decide (0 ≤ i) then
    match dAtA !! Z.to_nat i with
    | Some b => Done b
    | None => Crash
    end
  else Crash.

(** [dAtA[i] = b] *)
Definition store (dAtA : list Byte.byte) (i : Z) (b : Byte.byte) : outcome (list Byte.byte) :=
  if decide (0 ≤ i < len dAtA) then Done (<[Z.to_nat i := b]> dAtA) else Crash.

(** [dAtA[i:j]] *)
Definition slice (dAtA : list Byte.byte) (i j : Z) : outcome (list Byte.byte) :=
  if decide (0 ≤ i ≤ j ∧ j ≤ len dAtA)
  then Done (take (Z.to_nat (j - i)) (drop (Z.to_nat i) dAtA))
  else Crash.

(** [copy(dAtA[i:], src)]: the buffer after the copy and the number of
    bytes copied. *)
Definition copy (dAtA : list Byte.byte) (i : Z) (src : list Byte.byte) :
    outcome (list Byte.byte * Z) :=
  if decide (0 ≤ i ≤ len dAtA) then
    let n := Z.min (len dAtA - i) (len src) in
    Done (take (Z.to_nat i) dAtA ++ take (Z.to_nat n) src ++ drop (Z.to_nat (i + n)) dAtA, n)
  else Crash.

Definition io_ErrUnexpectedEOF : error := "unexpected EOF".
Definition ErrInvalidLengthConfig : error := "proto: negative length found during unmarshaling".
Definition ErrIntOverflowConfig : error := "proto: integer overflow".

Fixpoint encodeVarintConfig_loop (fuel : nat) (dAtA : list Byte.byte) (offset : Z) (v : N) :
    outcome (list Byte.byte * Z) :=
  if decide (2 ^ 7 ≤ v)%N then
    match fuel with
    | O => OutOfFuel
    | S fuel =>
        dAtA ← store dAtA offset (uint8 (N.lor (N.land v 0x7f) 0x80));
        encodeVarintConfig_loop fuel dAtA (offset + 1) (N.shiftr v 7)
    end
  else
    dAtA ← store dAtA offset (uint8 v);
    Done (dAtA, offset + 1).

Definition encodeVarintConfig (dAtA : list Byte.byte) (offset : Z) (v : N) :
    outcome (list Byte.byte * Z) :=
  encodeVarintConfig_loop (N.to_nat (N.log2 v)) dAtA offset v.

(** The loop of [sovConfig] counts the 7-bit groups of [x]. A 64-bit
    value has at most ten; the recursion is on the position of the highest
    bit of the argument, which bounds the number of rounds for every [x]. *)
Fixpoint sovConfig_loop (fuel : nat) (n : Z) (x : N) : Z :=
  let n := n + 1 in
  let x := N.shiftr x 7 in
  if decide (x = 0%N) then n
  else match fuel with
       | O => n
       | S fuel => sovConfig_loop fuel n x
       end.

Definition sovConfig (x : N) : Z := sovConfig_loop (N.to_nat (N.log2 x)) 0 x.

Definition sozConfig (x : N) : Z :=
  sovConfig (uint64 (N.lxor (uint64 (N.shiftl x 1))
                            (if decide (2 ^ 63 ≤ x)%N then 2 ^ 64 - 1 else 0)%N)).

(** The block that [Size] repeats for each field: a string of length
    [l > 0] adds [1 + l + sovConfig(uint64(l))] to [n]. *)
Definition size_field (s : string) (n : Z) : Z :=
  let l := len_string s in
  if decide (0 < l) then int (n + (1 + l + sovConfig (Z.to_N l))) else n.

Definition Size (m : Params) : Z :=
  let n := 0 in
  let n := size_field (ServiceId m) n in
  let n := size_field (SystemUrl m) n in
  let n := size_field (BackendUrl m) n in
  let n := size_field (AccessToken m) n in
  let n := size_field (ServiceToken m) n in
  n.

(** The block that [MarshalTo] repeats for each field, with the field's
    tag byte: nothing for an empty string, else the tag, the length as a
    varint and the bytes of the string. *)
Definition marshal_field (tag : Byte.byte) (s : string) (dAtA : list Byte.byte) (i : Z) :
    outcome (list Byte.byte * Z) :=
  if decide (0 < len_string s) then
    dAtA ← store dAtA i tag;
    let i := i + 1 in
    '(dAtA, i) ← encodeVarintConfig dAtA i (Z.to_N (len_string s));
    '(dAtA, n) ← copy dAtA i (String.list_byte_of_string s);
    Done (dAtA, i + n)
  else Done (dAtA, i).

Definition MarshalTo (m : Params) (dAtA : list Byte.byte) :
    outcome (list Byte.byte * Z * option error) :=
  let i := 0 in
  '(dAtA, i) ← marshal_field Byte.x0a (ServiceId m) dAtA i;
  '(dAtA, i) ← marshal_field Byte.x12 (SystemUrl m) dAtA i;
  '(dAtA, i) ← marshal_field Byte.x1a (BackendUrl m) dAtA i;
  '(dAtA, i) ← marshal_field Byte.x22 (AccessToken m) dAtA i;
  '(dAtA, i) ← marshal_field Byte.x2a (ServiceToken m) dAtA i;
  Done (dAtA, i, None).

Definition Marshal (m : Params) : outcome (option (list Byte.byte) * option error) :=
  let size := Size m in
  if decide (size < 0) then Crash
  else
    let dAtA := replicate (Z.to_nat size) Byte.x00 in
    '(dAtA, n, err) ← MarshalTo m dAtA;
    if decide (err ≠ None) then Done (None, err)
    else
      dAtA ← slice dAtA 0 n;
      Done (Some dAtA, None).

(** The loop [for shift := uint(0); ; shift += 7] that reads a varint at
    [iNdEx]: either an error or the accumulated value and the index after
    the varint. [add acc b shift] is the accumulation step. A round is only
    entered with [shift < 64], so there are at most ten of them. *)
Fixpoint varint_loop {A : Type} (add : A → N → N → A) (fuel : nat)
    (dAtA : list Byte.byte) (iNdEx : Z) (shift : N) (acc : A) : outcome (error + A * Z) :=
  if decide (64 ≤ shift)%N then Done (inl ErrIntOverflowConfig)
  else if decide (len dAtA ≤ iNdEx) then Done (inl io_ErrUnexpectedEOF)
  else
    b ← load dAtA iNdEx;
    let iNdEx := iNdEx + 1 in
    let acc := add acc (Byte.to_N b) shift in
    if decide (Byte.to_N b < 0x80)%N then Done (inr (acc, iNdEx))
    else match fuel with
         | O => OutOfFuel
         | S fuel => varint_loop add fuel dAtA iNdEx (shift + 7)%N acc
         end.

(** [wire |= (uint64(b) & 0x7F) << shift] *)
Definition add_uint64 (acc b shift : N) : N :=
  N.lor acc (uint64 (N.shiftl (N.land b 0x7F) shift)).

(** [length |= (int(b) & 0x7F) << shift] *)
Definition add_int (acc : Z) (b shift : N) : Z :=
  Z.lor acc (int (Z.shiftl (Z.of_N (N.land b 0x7F)) (Z.of_N shift))).

Definition read_uint64 (dAtA : list Byte.byte) (iNdEx : Z) : outcome (error + N * Z) :=
  varint_loop add_uint64 10 dAtA iNdEx 0 0%N.

Definition read_int (dAtA : list Byte.byte) (iNdEx : Z) : outcome (error + Z * Z) :=
  varint_loop add_int 10 dAtA iNdEx 0 0.

(** The varint loop of wire type 0, which keeps no value. *)
Definition read_past (dAtA : list Byte.byte) (iNdEx : Z) : outcome (error + unit * Z) :=
  varint_loop (λ _ _ _, ()) 10 dAtA iNdEx 0 ().

(** The loop [for { ... }] of wire type 3 in [skipConfig]; [skip] is
    [skipConfig] itself, for the fields inside the group. *)
Fixpoint skipConfig_group (skip : list Byte.byte → outcome (Z * option error))
    (fuel : nat) (dAtA : list Byte.byte) (iNdEx : Z) : outcome (Z * option error) :=
  let start := iNdEx in
  r ← read_uint64 dAtA iNdEx;
  match r with
  | inl e => Done (0, Some e)
  | inr (innerWire, iNdEx) =>
      let innerWireType := Z.of_N (N.land innerWire 0x7) in
      if decide (innerWireType = 4) then Done (iNdEx, None)
      else
        rest ← slice dAtA start (len dAtA);
        '(next, err) ← skip rest;
        if decide (err ≠ None) then Done (0, err)
        else
          let iNdEx := int (start + next) in
          match fuel with
          | O => OutOfFuel
          | S fuel => skipConfig_group skip fuel dAtA iNdEx
          end
  end.

Fixpoint skipConfig_fuel (fuel : nat) (dAtA : list Byte.byte) : outcome (Z * option error) :=
  let l := len dAtA in
  let iNdEx := 0 in
  if decide (iNdEx < l) then
    r ← read_uint64 dAtA iNdEx;
    match r with
    | inl e => Done (0, Some e)
    | inr (wire, iNdEx) =>
        let wireType := Z.of_N (N.land wire 0x7) in
        if decide (wireType = 0) then
          r ← read_past dAtA iNdEx;
          match r with
          | inl e => Done (0, Some e)
          | inr (_, iNdEx) => Done (iNdEx, None)
          end
        else if decide (wireType = 1) then Done (int (iNdEx + 8), None)
        else if decide (wireType = 2) then
          r ← read_int dAtA iNdEx;
          match r with
          | inl e => Done (0, Some e)
          | inr (length, iNdEx) =>
              let iNdEx := int (iNdEx + length) in
              if decide (length < 0) then Done (0, Some ErrInvalidLengthConfig)
              else Done (iNdEx, None)
          end
        else if decide (wireType = 3) then
          match fuel with
          | O => OutOfFuel
          | S fuel => skipConfig_group (skipConfig_fuel fuel) fuel dAtA iNdEx
          end
        else if decide (wireType = 4) then Done (iNdEx, None)
        else if decide (wireType = 5) then Done (int (iNdEx + 4), None)
        else Done (0, Some ("proto: illegal wireType " +:+ pretty wireType))
    end
  else Crash.

(** Every nested call of [skipConfig] is on a strictly shorter slice and
    every round of its group loop moves on by at least one byte, so the
    length of the input bounds both. *)
Definition skipConfig (dAtA : list Byte.byte) : outcome (Z * option error) :=
  skipConfig_fuel (length dAtA) dAtA.

Definition with_SystemUrl (m : Params) (s : string) : Params :=
  mk_Params (ServiceId m) s (BackendUrl m) (AccessToken m) (ServiceToken m).
Definition with_BackendUrl (m : Params) (s : string) : Params :=
  mk_Params (ServiceId m) (SystemUrl m) s (AccessToken m) (ServiceToken m).
Definition with_AccessToken (m : Params) (s : string) : Params :=
  mk_Params (ServiceId m) (SystemUrl m) (BackendUrl m) s (ServiceToken m).
Definition with_ServiceToken (m : Params) (s : string) : Params :=
  mk_Params (ServiceId m) (SystemUrl m) (BackendUrl m) (AccessToken m) s.

(** What one round of the loop of [Unmarshal] leaves: the message and the
    error to return, or the message and the index to go on with. *)
Inductive round : Type :=
| Return (m : Params) (err : option error)
| Next (m : Params) (iNdEx : Z).

(** The case of a string field, the same for the five fields but for the
    name in the error and the field that is set. *)
Definition string_field (name : string) (set : Params → string → Params)
    (m : Params) (dAtA : list Byte.byte) (wireType : Z) (iNdEx : Z) : outcome round :=
  let l := len dAtA in
  if decide (wireType ≠ 2) then
    Done (Return m (Some ("proto: wrong wireType = " +:+ pretty wireType
                          +:+ " for field " +:+ name)))
  else
    r ← read_uint64 dAtA iNdEx;
    match r with
    | inl e => Done (Return m (Some e))
    | inr (stringLen, iNdEx) =>
        let intStringLen := int (Z.of_N stringLen) in
        if decide (intStringLen < 0) then Done (Return m (Some ErrInvalidLengthConfig))
        else
          let postIndex := int (iNdEx + intStringLen) in
          if decide (l < postIndex) then Done (Return m (Some io_ErrUnexpectedEOF))
          else
            bs ← slice dAtA iNdEx postIndex;
            Done (Next (set m (String.string_of_list_byte bs)) postIndex)
    end.

Definition Unmarshal_round (m : Params) (dAtA : list Byte.byte) (iNdEx : Z) : outcome round :=
  let l := len dAtA in
  let preIndex := iNdEx in
  r ← read_uint64 dAtA iNdEx;
  match r with
  | inl e => Done (Return m (Some e))
  | inr (wire, iNdEx) =>
      let fieldNum := int32 (Z.of_N (N.shiftr wire 3)) in
      let wireType := Z.of_N (N.land wire 0x7) in
      if decide (wireType = 4) then
        Done (Return m (Some "proto: Params: wiretype end group for non-group"))
      else if decide (fieldNum ≤ 0) then
        Done (Return m (Some ("proto: Params: illegal tag " +:+ pretty fieldNum
                              +:+ " (wire type " +:+ pretty wire +:+ ")")))
      else if decide (fieldNum = 1) then
        string_field "ServiceId" with_ServiceId m dAtA wireType iNdEx
      else if decide (fieldNum = 2) then
        string_field "SystemUrl" with_SystemUrl m dAtA wireType iNdEx
      else if decide (fieldNum = 3) then
        string_field "BackendUrl" with_BackendUrl m dAtA wireType iNdEx
      else if decide (fieldNum = 4) then
        string_field "AccessToken" with_AccessToken m dAtA wireType iNdEx
      else if decide (fieldNum = 5) then
        string_field "ServiceToken" with_ServiceToken m dAtA wireType iNdEx
      else
        let iNdEx := preIndex in
        rest ← slice dAtA iNdEx l;
        '(skippy, err) ← skipConfig rest;
        if decide (err ≠ None) then Done (Return m err)
        else if decide (skippy < 0) then Done (Return m (Some ErrInvalidLengthConfig))
        else if decide (l < int (iNdEx + skippy)) then Done (Return m (Some io_ErrUnexpectedEOF))
        else Done (Next m (int (iNdEx + skippy)))
  end.

Fixpoint Unmarshal_loop (fuel : nat) (m : Params) (dAtA : list Byte.byte) (iNdEx : Z) :
    outcome (Params * option error) :=
  let l := len dAtA in
  if decide (iNdEx < l) then
    match fuel with
    | O => OutOfFuel
    | S fuel =>
        r ← Unmarshal_round m dAtA iNdEx;
        match r with
        | Return m err => Done (m, err)
        | Next m iNdEx => Unmarshal_loop fuel m dAtA iNdEx
        end
    end
  else if decide (l < iNdEx) then Done (m, Some io_ErrUnexpectedEOF)
  else Done (m, None).

(** [m.Unmarshal(dAtA)]: the receiver after the call and the error. Every
    round that goes on has read at least one byte, so the length of the input
    bounds the number of rounds. *)
Definition Unmarshal (m : Params) (dAtA : list Byte.byte) : outcome (Params * option error) :=
  Unmarshal_loop (length dAtA) m dAtA 0.

(** The zero value [Params{}]. *)
Definition zero : Params := mk_Params "" "" "" "" "".

(** ** The wire format, as a function

    What the encoder is shown to write: a varint as the list of its bytes,
    low group first, a field as its tag, the length of the string and its
    bytes (nothing for an empty string), a message as its five fields in
    order. *)

Fixpoint varint_fuel (fuel : nat) (v : N) : list Byte.byte :=
  if decide (2 ^ 7 ≤ v)%N then
    match fuel with
    | O => []
    | S fuel => uint8 (N.lor (N.land v 0x7f) 0x80) :: varint_fuel fuel (N.shiftr v 7)
    end
  else [uint8 v].

Definition varint (v : N) : list Byte.byte := varint_fuel (N.to_nat (N.log2 v)) v.

Definition encode_field (tag : Byte.byte) (s : string) : list Byte.byte :=
  if decide (0 < len_string s)
  then tag :: varint (Z.to_N (len_string s)) ++ String.list_byte_of_string s
  else [].

Definition encode (m : Params) : list Byte.byte :=
  encode_field Byte.x0a (ServiceId m) ++ encode_field Byte.x12 (SystemUrl m)
  ++ encode_field Byte.x1a (BackendUrl m) ++ encode_field Byte.x22 (AccessToken m)
  ++ encode_field Byte.x2a (ServiceToken m).

(** The receiver after decoding the encoding of [m]: the fields that [m]
    sets replace the receiver's, the empty ones leave them. *)
Definition merge (m0 m : Params) : Params :=
  let pick (old new : string) := if decide (0 < len_string new) then new else old in
  mk_Params (pick (ServiceId m0) (ServiceId m)) (pick (SystemUrl m0) (SystemUrl m))
            (pick (BackendUrl m0) (BackendUrl m)) (pick (AccessToken m0) (AccessToken m))
            (pick (ServiceToken m0) (ServiceToken m)).

(** The five fields: tag byte, name in the error text, and setter. *)
Inductive field : Byte.byte → string → (Params → string → Params) → Prop :=
| field_ServiceId : field Byte.x0a "ServiceId" with_ServiceId
| field_SystemUrl : field Byte.x12 "SystemUrl" with_SystemUrl
| field_BackendUrl : field Byte.x1a "BackendUrl" with_BackendUrl
| field_AccessToken : field Byte.x22 "AccessToken" with_AccessToken
| field_ServiceToken : field Byte.x2a "ServiceToken" with_ServiceToken.

(** The sum of the lengths of the five strings. *)
Definition total_length (m : Params) : Z :=
  len_string (ServiceId m) + len_string (SystemUrl m) + len_string (BackendUrl m)
  + len_string (AccessToken m) + len_string (ServiceToken m).

(** The loop of [Unmarshal] from index [i] gives [r], with any supply of
    rounds that covers the bytes left. *)
Definition loop_gives (m : Params) (dAtA : list Byte.byte) (i : Z)
    (r : outcome (Params * option error)) : Prop :=
  ∀ fuel : nat, len dAtA - i ≤ Z.of_nat fuel → Unmarshal_loop fuel m dAtA i = r.

End config.

(** * Properties *)

(** One step of a run: a call is answered by the environment. *)
Ltac answer h :=
  match goal with
  | |- context [h ?X ?ev ?w] =>
      let c := fresh "c" in let e := fresh "e" in let w' := fresh "w" in
      destruct (h X ev w) as [[c [e|]] w']; simpl
  end.

(** A run that stopped at [out]. *)
Ltac stopped :=
  do 4 eexists; split; [reflexivity|]; split; [done|]; right; done.

Section Properties.

Context {ThreeScaleClient Client ProxyConfigCache : Type}.
Variable regexp_MatchString : string → string → bool * option error.
Variable strings_ToUpper : string → string.
Variable Params_Unmarshal : list Byte.byte → Params * option error.

Local Abbreviation matches := (rule_matches regexp_MatchString strings_ToUpper).
Local Abbreviation metrics_of := (generateMetrics regexp_MatchString strings_ToUpper).
Local Abbreviation deltas_of := (matching_deltas regexp_MatchString strings_ToUpper).
Local Abbreviation rules_of conf := (ProxyRules (Proxy (ProxyConfig_Content conf))).
Local Abbreviation Ev := (@Event ThreeScaleClient Client ProxyConfigCache).
Local Abbreviation Program := (@Prog ThreeScaleClient Client ProxyConfigCache).
Local Abbreviation Env W := (∀ X, Ev X → W → X * W).
Local Abbreviation Return := (@Ret ThreeScaleClient Client ProxyConfigCache _).
Local Abbreviation authorize :=
  (@isAuthorized ThreeScaleClient Client ProxyConfigCache regexp_MatchString strings_ToUpper).
Local Abbreviation handle :=
  (@HandleAuthorization ThreeScaleClient Client ProxyConfigCache
     regexp_MatchString strings_ToUpper Params_Unmarshal).

(** ** The mapping matcher *)

Lemma Metrics_Add_lookup (m : Metrics) (name : string) (value : Z) (k : string) :
  Metrics_Add m name value !! k =
    if decide (k = name) then Some (default 0 (m !! name) + value) else m !! k.
Proof.
  unfold Metrics_Add.
  destruct (m !! name) as [cur|] eqn:Hm; case_decide; subst;
    rewrite ?lookup_insert_eq, ?lookup_insert_ne by done; done.
Qed.

Lemma sum_deltas_app (xs ys : list Z) :
  sum_deltas (xs ++ ys) = sum_deltas xs + sum_deltas ys.
Proof. unfold sum_deltas. induction xs as [|x xs IH]; simpl; lia. Qed.

Lemma accumulated_default (ds : list Z) :
  default 0 (accumulated ds) = sum_deltas ds.
Proof. by destruct ds. Qed.

Lemma accumulated_middle (xs : list Z) (d : Z) (ys : list Z) :
  accumulated (xs ++ d :: ys) = Some (sum_deltas (xs ++ d :: ys)).
Proof. by destruct xs. Qed.

Lemma matching_deltas_cons path method name pr (rules : list ProxyRule) :
  deltas_of path method name (pr :: rules) =
    (if decide (matches path method pr = true ∧ MetricSystemName pr = name)
     then [Delta pr] else []) ++ deltas_of path method name rules.
Proof.
  unfold matching_deltas. rewrite filter_cons. by case_decide.
Qed.

Lemma matching_deltas_app path method name (xs ys : list ProxyRule) :
  deltas_of path method name (xs ++ ys) =
    deltas_of path method name xs ++ deltas_of path method name ys.
Proof. unfold matching_deltas. by rewrite filter_app, fmap_app. Qed.

(** The loop of [generateMetrics], started from any map. *)
Lemma generateMetrics_loop_lookup path method name (rules : list ProxyRule) (acc : Metrics) :
  foldl (λ metrics pr,
           if matches path method pr
           then Metrics_Add metrics (MetricSystemName pr) (Delta pr)
           else metrics) acc rules !! name =
    match deltas_of path method name rules with
    | [] => acc !! name
    | ds => Some (default 0 (acc !! name) + sum_deltas ds)
    end.
Proof.
  revert acc. induction rules as [|pr rules IH]; intros acc; [done|].
  simpl foldl. rewrite IH, matching_deltas_cons.
  destruct (matches path method pr) eqn:Hm.
  - rewrite Metrics_Add_lookup.
    destruct (decide (name = MetricSystemName pr)) as [->|Hn].
    + rewrite decide_True by done. simpl.
      destruct (deltas_of path method (MetricSystemName pr) rules) as [|d ds];
        f_equal; unfold sum_deltas; simpl; lia.
    + rewrite decide_False by (intros [_ ?]; done). done.
  - rewrite decide_False by (intros [? _]; done). done.
Qed.

Lemma generateMetrics_lookup path method conf name :
  metrics_of path method conf !! name =
    accumulated (deltas_of path method name (rules_of conf)).
Proof.
  unfold generateMetrics. rewrite generateMetrics_loop_lookup, lookup_empty.
  by destruct (deltas_of _ _ _ _).
Qed.

(** The result is empty exactly when no rule matches. *)
Lemma generateMetrics_empty_iff path method conf :
  metrics_of path method conf = ∅ ↔
  Forall (λ pr, matches path method pr = false) (rules_of conf).
Proof.
  split.
  - intros He. apply Forall_forall. intros pr Hin.
    destruct (matches path method pr) eqn:Hm; [exfalso|done].
    pose proof (generateMetrics_lookup path method conf (MetricSystemName pr)) as Hl.
    rewrite He, lookup_empty in Hl.
    apply list_elem_of_split in Hin as (xs & ys & Hr). rewrite Hr in Hl.
    rewrite matching_deltas_app, matching_deltas_cons in Hl.
    rewrite decide_True in Hl by done.
    by destruct (deltas_of path method (MetricSystemName pr) xs).
  - intros Hall. apply map_eq. intros name.
    rewrite generateMetrics_lookup, lookup_empty.
    assert (deltas_of path method name (rules_of conf) = []) as ->; [|done].
    induction Hall as [|pr rules Hpr _ IH]; [done|].
    rewrite matching_deltas_cons, IH.
    rewrite decide_False; [done|]. rewrite Hpr. by intros [? _].
Qed.

(** C2. Rule matching gives every metric name the sum of the deltas of
    the rules that match the request and count on that name, and no entry to
    a name on which no rule matches: matching rules on one metric accumulate,
    none overwrites another. In particular two matching rules on one metric
    with deltas 1 and 2 give it 3. *)
Theorem generateMetrics_accumulates :
  (∀ path method conf name,
     generateMetrics regexp_MatchString strings_ToUpper path method conf !! name =
       accumulated
         (matching_deltas regexp_MatchString strings_ToUpper path method name
            (ProxyRules (Proxy (ProxyConfig_Content conf)))))
  ∧ (∀ path method conf r1 r2,
       ProxyRules (Proxy (ProxyConfig_Content conf)) = [r1; r2] →
       rule_matches regexp_MatchString strings_ToUpper path method r1 = true →
       rule_matches regexp_MatchString strings_ToUpper path method r2 = true →
       MetricSystemName r1 = MetricSystemName r2 →
       Delta r1 = 1 → Delta r2 = 2 →
       generateMetrics regexp_MatchString strings_ToUpper path method conf
         !! MetricSystemName r1 = Some 3).
Proof.
  split; [apply generateMetrics_lookup|].
  intros path method conf r1 r2 Hr H1 H2 Hn Hd1 Hd2.
  rewrite generateMetrics_lookup, Hr, !matching_deltas_cons.
  rewrite !decide_True by done.
  simpl. unfold sum_deltas. simpl. rewrite Hd1, Hd2. done.
Qed.

(** C6. What one rule adds, whatever stands before and after it in the
    configuration. The rule counts exactly when [regexp.MatchString], given
    the rule's pattern and the request path as they are, reports a match
    without error and the upper-cased methods agree; it then adds its delta
    to its metric and changes nothing else. In every other case, a pattern
    that does not compile included, the result is the one of the
    configuration without the rule: the other rules are evaluated all the
    same. *)
Theorem generateMetrics_rule_contribution path method conf conf' before pr after :
  ProxyRules (Proxy (ProxyConfig_Content conf)) = before ++ pr :: after →
  ProxyRules (Proxy (ProxyConfig_Content conf')) = before ++ after →
  let with_rule := generateMetrics regexp_MatchString strings_ToUpper path method conf in
  let without := generateMetrics regexp_MatchString strings_ToUpper path method conf' in
  match regexp_MatchString (Pattern pr) path with
  | (true, None) =>
      if decide (strings_ToUpper (HTTPMethod pr) = strings_ToUpper method)
      then ∀ name,
             with_rule !! name =
               if decide (name = MetricSystemName pr)
               then Some (default 0 (without !! name) + Delta pr)
               else without !! name
      else with_rule = without
  | (false, None) => with_rule = without
  | (_, Some _) => with_rule = without
  end.
Proof.
  intros Hc Hc'. simpl.
  assert (Hsame : matches path method pr = false →
                  metrics_of path method conf = metrics_of path method conf').
  { intros Hm. apply map_eq. intros name.
    rewrite !generateMetrics_lookup, Hc, Hc'.
    rewrite !matching_deltas_app, matching_deltas_cons.
    rewrite decide_False; [done|]. rewrite Hm. by intros [? _]. }
  unfold rule_matches in Hsame.
  destruct (regexp_MatchString (Pattern pr) path) as [[|] [e|]] eqn:Hre;
    try (apply Hsame; done).
  case_decide as Hu.
  - intros name. rewrite !generateMetrics_lookup, Hc, Hc'.
    rewrite !matching_deltas_app, matching_deltas_cons.
    assert (matches path method pr = true) as Hm.
    { unfold rule_matches. rewrite Hre. simpl. by apply bool_decide_eq_true. }
    destruct (decide (name = MetricSystemName pr)) as [->|Hn].
    + rewrite decide_True by done.
      rewrite accumulated_default. simpl app. rewrite accumulated_middle.
      rewrite !sum_deltas_app. f_equal. unfold sum_deltas. simpl. lia.
    + rewrite decide_False by (intros [_ ?]; done). done.
  - apply Hsame. by rewrite bool_decide_eq_false_2.
Qed.

(** ** Running programs *)

Lemma run_bind {W A B : Type} (h : Env W) (p : Program A) (f : A → Program B) (w : W) :
  run h (Prog_bind f p) w =
    match run h p w with
    | Some (a, t, w') =>
        match run h (f a) w' with
        | Some (b, t', w'') => Some (b, t ++ t', w'')
        | None => None
        end
    | None => None
    end.
Proof.
  revert w. induction p as [a| |X e k IH]; intros w; simpl.
  - by destruct (run h (f a) w) as [[[b t'] w'']|].
  - done.
  - destruct (h X e w) as [x w1]. rewrite IH.
    destruct (run h (k x) w1) as [[[a t] w2]|]; [|done].
    by destruct (run h (f a) w2) as [[[b t'] w3]|].
Qed.

Lemma run_Call {W R X : Type} (h : Env W) (e : Ev X) (k : X → Program R) (w : W) :
  run h (Call e k) w =
    let '(x, w') := h X e w in
    match run h (k x) w' with
    | Some (r, t, w'') => Some (r, mk_Called e :: t, w'')
    | None => None
    end.
Proof. reflexivity. Qed.

Lemma string_app_assoc (a b c : string) : (a +:+ b) +:+ c = a +:+ b +:+ c.
Proof.
  induction a as [|x a IH]; [done|].
  change (String x ((a +:+ b) +:+ c) = String x (a +:+ b +:+ c)). by f_equal.
Qed.

Lemma string_app_nil_r (a : string) : a +:+ "" = a.
Proof.
  induction a as [|x a IH]; [done|].
  change (String x (a +:+ "") = String x a). by f_equal.
Qed.

Lemma contains_middle (a sub b : string) : contains (a +:+ sub +:+ b) sub.
Proof. by exists a, b. Qed.

Lemma contains_end (a sub : string) : contains (a +:+ sub) sub.
Proof. exists a, ""%string. by rewrite string_app_nil_r. Qed.

(** ** Error statuses *)

Lemma rpcStatusErrorHandler_message (msg : string) (fn : string → rpc_Status)
    (err : option error) :
  msg ≠ "" →
  rpcStatusErrorHandler msg fn err =
    let text := msg +:+ " " +:+ match err with Some e => "- " +:+ e | None => "" end in
    Some (fn text, Some text).
Proof. intros Hm. unfold rpcStatusErrorHandler. by rewrite decide_True. Qed.

Lemma rpcStatusErrorHandler_error (fn : string → rpc_Status) (e : error) :
  rpcStatusErrorHandler "" fn (Some e) = Some (fn e, Some e).
Proof. done. Qed.

(** A stage that failed with the error [e]: the handler leaves through
    [out] with the zero-valued result, the status made of the message and the
    error's text, and that text as its error. *)
Lemma run_out_message {W : Type} (h : Env W) (w : W) (msg : string)
    (fn : string → rpc_Status) (e : error) :
  msg ≠ "" →
  run h (out (rpcStatusErrorHandler msg fn (Some e)) CheckResult_zero) w =
    Some ((mk_CheckResult (fn (msg +:+ " - " +:+ e)) 0 0, Some (msg +:+ " - " +:+ e)), [], w).
Proof.
  intros Hm. rewrite rpcStatusErrorHandler_message by done. reflexivity.
Qed.

Lemma apiRespConverter_Ret (resp : Response) (e : option error) :
  apiRespConverter resp e =
    Return
      match e with
      | Some msg => WithUnknown ("error calling 3scale backend - " +:+ msg)
      | None => if Success resp then status_OK else WithPermissionDenied (Reason resp)
      end.
Proof. destruct e as [msg|]; [done|]. unfold apiRespConverter. by destruct (Success resp). Qed.

(** C3. The translation of a backend answer never calls out and never
    panics. A non-nil error gives Unknown with the message
    "error calling 3scale backend - " followed by the error's text; no error
    and [Success = false] gives PermissionDenied with the backend's reason;
    no error and [Success = true] gives OK. *)
Theorem apiRespConverter_translation :
  (∀ (resp : Response) (e : error),
     apiRespConverter resp (Some e) =
       Return (WithUnknown ("error calling 3scale backend - " +:+ e))
     ∧ Code (WithUnknown ("error calling 3scale backend - " +:+ e)) = UNKNOWN
     ∧ contains (Message (WithUnknown ("error calling 3scale backend - " +:+ e))) e)
  ∧ (∀ reason : string,
       apiRespConverter (mk_Response reason false) None =
         Return (mk_rpc_Status PERMISSION_DENIED reason))
  ∧ (∀ reason : string,
       apiRespConverter (mk_Response reason true) None =
         Return (mk_rpc_Status OK "")).
Proof.
  split; [|split].
  - intros resp e. split; [done|]. split; [done|].
    apply contains_end.
  - done.
  - done.
Qed.

(** ** The decision *)

Lemma isAuthorized_unauthenticated svcID request proxyConf client appKey :
  Path (Action request) ≠ "" →
  credentials request proxyConf = ("", appKey, "") →
  authorize svcID request proxyConf client =
    Return (WithPermissionDenied unauthenticatedErr).
Proof.
  intros Hp Hc. unfold isAuthorized.
  rewrite decide_False by done. rewrite Hc. by rewrite decide_True.
Qed.

Lemma isAuthorized_unmatched svcID request proxyConf client appID appKey userKey :
  Path (Action request) ≠ "" →
  credentials request proxyConf = (appID, appKey, userKey) →
  ¬ (appID = "" ∧ userKey = "") →
  metrics_of (Path (Action request)) (Method (Action request)) proxyConf = ∅ →
  authorize svcID request proxyConf client =
    Return (WithPermissionDenied
              ("no matching mapping rule for request with method "
               +:+ Method (Action request) +:+ " and path " +:+ Path (Action request))).
Proof.
  intros Hp Hc Hcred Hm. unfold isAuthorized.
  rewrite decide_False by done. rewrite Hc.
  rewrite decide_False by done. rewrite Hm.
  by rewrite decide_True.
Qed.

Lemma isAuthorized_calls_backend svcID request proxyConf client appID appKey userKey :
  Path (Action request) ≠ "" →
  credentials request proxyConf = (appID, appKey, userKey) →
  ¬ (appID = "" ∧ userKey = "") →
  metrics_of (Path (Action request)) (Method (Action request)) proxyConf ≠ ∅ →
  authorize svcID request proxyConf client =
    Call (AuthRep
            {| Auth := {|
                 Auth_Type := BackendAuthenticationType (ProxyConfig_Content proxyConf);
                 Auth_Value := BackendAuthenticationValue (ProxyConfig_Content proxyConf) |};
               ServiceID := svcID;
               Req_Transaction := {|
                 Tx_Metrics :=
                   metrics_of (Path (Action request)) (Method (Action request)) proxyConf;
                 Tx_Params := {| AppID := appID; AppKey := appKey; UserKey := userKey |} |} |}
            client)
         (λ '(resp, e), apiRespConverter resp e).
Proof.
  intros Hp Hc Hcred Hm. unfold isAuthorized.
  rewrite decide_False by done. rewrite Hc.
  rewrite decide_False by done.
  rewrite decide_False by (by rewrite map_size_empty_iff).
  done.
Qed.

(** Every run of the decision ends, after no call at all or after the one
    AuthRep call, which carries the service id and the application
    identifier that was read from the request. *)
Lemma isAuthorized_run {W : Type} (h : Env W) (w : W) svcID request proxyConf client :
  ∃ st t w',
    run h (authorize svcID request proxyConf client) w = Some (st, t, w')
    ∧ (t = []
       ∨ ∃ req, t = [mk_Called (AuthRep req client)]
               ∧ ServiceID req = svcID
               ∧ AppID (Tx_Params (Req_Transaction req)) =
                   (credentials request proxyConf).1.1).
Proof.
  destruct (decide (Path (Action request) = "")) as [Hp|Hp].
  { unfold isAuthorized. rewrite decide_True by done. simpl. eauto 6. }
  destruct (credentials request proxyConf) as [[appID appKey] userKey] eqn:Hc.
  destruct (decide (appID = "" ∧ userKey = "")) as [[-> ->]|Hcred].
  { rewrite (isAuthorized_unauthenticated _ _ _ _ appKey) by done. simpl. eauto 6. }
  destruct (decide (metrics_of (Path (Action request)) (Method (Action request)) proxyConf = ∅))
    as [Hm|Hm].
  { rewrite (isAuthorized_unmatched _ _ _ _ appID appKey userKey) by done. simpl. eauto 6. }
  rewrite (isAuthorized_calls_backend _ _ _ _ appID appKey userKey) by done.
  simpl. destruct (h _ _ w) as [[resp e] w1].
  rewrite apiRespConverter_Ret. simpl.
  do 3 eexists. split; [done|]. right. eexists. split; [done|]. done.
Qed.

(** C4. A request with a path whose application identifier and user key
    both come out empty is answered PermissionDenied with the
    missing-credentials message (so never with Internal), in every
    environment and without any call: the trace is empty and the
    environment is left as it was. *)
Theorem isAuthorized_missing_credentials {W : Type} (h : Env W) (w : W)
    svcID request proxyConf client appKey :
  Path (Action request) ≠ "" →
  credentials request proxyConf = ("", appKey, "") →
  run h (isAuthorized regexp_MatchString strings_ToUpper svcID request proxyConf client) w =
    Some (mk_rpc_Status PERMISSION_DENIED
            "no auth credentials provided or provided in invalid location", [], w).
Proof.
  intros Hp Hc. by rewrite (isAuthorized_unauthenticated _ _ _ _ appKey).
Qed.

(** C5. A request with a path and a credential that no mapping rule
    matches is answered PermissionDenied, with a message in which both the
    request method and the request path occur, and without any call: the
    AuthRep call is not made. *)
Theorem isAuthorized_no_matching_rule {W : Type} (h : Env W) (w : W)
    svcID request proxyConf client appID appKey userKey :
  Path (Action request) ≠ "" →
  credentials request proxyConf = (appID, appKey, userKey) →
  ¬ (appID = "" ∧ userKey = "") →
  Forall (λ pr, rule_matches regexp_MatchString strings_ToUpper
                  (Path (Action request)) (Method (Action request)) pr = false)
         (ProxyRules (Proxy (ProxyConfig_Content proxyConf))) →
  ∃ st,
    run h (isAuthorized regexp_MatchString strings_ToUpper svcID request proxyConf client) w =
      Some (st, [], w)
    ∧ Code st = PERMISSION_DENIED
    ∧ contains (Message st) (Method (Action request))
    ∧ contains (Message st) (Path (Action request)).
Proof.
  intros Hp Hc Hcred Hnone.
  apply generateMetrics_empty_iff in Hnone.
  rewrite (isAuthorized_unmatched _ _ _ _ appID appKey userKey) by done.
  eexists. split; [done|]. split; [done|]. simpl. split.
  - apply contains_middle.
  - rewrite <- !string_app_assoc. apply contains_end.
Qed.

(** C10. Without a subject the three credentials are empty strings, and a
    request with a path is answered PermissionDenied with the
    missing-credentials message: the run ends with that status in every
    environment, it does not panic and makes no call. *)
Theorem isAuthorized_without_subject {W : Type} (h : Env W) (w : W)
    svcID request proxyConf client :
  Path (Action request) ≠ "" →
  Subject request = None →
  credentials request proxyConf = ("", "", "")
  ∧ run h (isAuthorized regexp_MatchString strings_ToUpper svcID request proxyConf client) w =
      Some (mk_rpc_Status PERMISSION_DENIED
              "no auth credentials provided or provided in invalid location", [], w).
Proof.
  intros Hp Hs.
  assert (credentials request proxyConf = ("", "", "")) as Hc.
  { unfold credentials. by rewrite Hs. }
  split; [done|]. by rewrite (isAuthorized_unauthenticated _ _ _ _ "").
Qed.

(** C1. The application identifier of every AuthRep request that the
    decision sends is the string value of the subject's ["client_id"]
    property when the backend version of the proxy configuration is
    ["oauth"], whatever the ["app_id"] property holds, and the string value of
    the ["app_id"] property for every other backend version. *)
Theorem isAuthorized_app_identifier {W : Type} (h : Env W) (w : W)
    svcID request proxyConf client subject st t w' :
  Subject request = Some subject →
  run h (isAuthorized regexp_MatchString strings_ToUpper svcID request proxyConf client) w =
    Some (st, t, w') →
  (BackendVersion (ProxyConfig_Content proxyConf) = "oauth" →
   Forall (λ req, AppID (Tx_Params (Req_Transaction req)) =
                    GetStringValue (Properties subject !! "client_id"))
          (authRep_requests t))
  ∧ (BackendVersion (ProxyConfig_Content proxyConf) ≠ "oauth" →
     Forall (λ req, AppID (Tx_Params (Req_Transaction req)) =
                      GetStringValue (Properties subject !! "app_id"))
            (authRep_requests t)).
Proof.
  intros Hs Hrun.
  destruct (isAuthorized_run h w svcID request proxyConf client)
    as (st0 & t0 & w0 & Hrun0 & Ht).
  rewrite Hrun in Hrun0. injection Hrun0 as <- <- <-.
  destruct Ht as [->|(req & -> & _ & Happ)].
  { split; intros _; constructor. }
  unfold credentials in Happ. rewrite Hs in Happ. simpl in Happ.
  split; intros Hv; simpl; constructor; try constructor; rewrite Happ.
  - by rewrite decide_True.
  - by rewrite decide_False.
Qed.

(** ** The handler *)

Lemma parseConfigParams_cases (r : HandleAuthorizationRequest) :
  (∃ cfg, parseConfigParams Params_Unmarshal r = (Some cfg, None))
  ∨ (∃ e, parseConfigParams Params_Unmarshal r = (None, Some e)).
Proof.
  unfold parseConfigParams. destruct (AdapterConfig r) as [any|]; [|eauto].
  destruct (Params_Unmarshal (Any_Value any)) as [cfg [e|]]; eauto.
Qed.

Lemma HandleAuthorization_run {W : Type} (h : Env W) (w : W) s r :
  ∃ res err t w',
    run h (handle s r) w = Some ((res, err), t, w')
    ∧ ValidDuration res = 0
    ∧ ((err = None ∧ ValidUseCount res = -1)
       ∨ (err ≠ None ∧ ValidUseCount res = 0 ∧ Code (Status res) ≠ OK
          ∧ authRep_requests t = [])).
Proof.
  unfold HandleAuthorization.
  destruct (parseConfigParams_cases r) as [[cfg ->]|[e ->]]; [|simpl; stopped].
  rewrite decide_False by (intros ?; done). simpl.
  destruct (if decide (ServiceId cfg = "") is left _
            then if decide (Service (Action (Instance r)) = "") is left _
                 then None else Some (Service (Action (Instance r)))
            else Some (ServiceId cfg)) as [serviceId|]; [|simpl; stopped].
  simpl. answer h; [stopped|].
  unfold extractProxyConf.
  destruct (systemCache (conf s)) as [cache|]; simpl;
    (answer h; [stopped|]); (answer h; [stopped|]);
    unfold mbind, Prog_mbind; rewrite run_bind;
    match goal with
    | |- context [run h (authorize ?a ?b ?c ?d) ?w] =>
        destruct (isAuthorized_run h w a b c d) as (st & t & w' & -> & _)
    end; simpl;
    do 4 eexists; (split; [reflexivity|]); (split; [done|]); left; done.
Qed.


(** C7. The handler always returns, and a result whose status is OK
    carries validity duration 0 and validity use count -1 (and comes with a
    nil error): the host is told not to cache a granted check. *)
Theorem HandleAuthorization_OK_disables_caching {W : Type} (h : Env W) (w : W) s r :
  ∃ res err t w',
    run h (HandleAuthorization regexp_MatchString strings_ToUpper Params_Unmarshal s r) w =
      Some ((res, err), t, w')
    ∧ (Code (Status res) = OK →
       ValidDuration res = 0 ∧ ValidUseCount res = -1 ∧ err = None).
Proof.
  destruct (HandleAuthorization_run h w s r)
    as (res & err & t & w' & Hrun & Hd & [[-> Hc]|(_ & _ & Hcode & _)]).
  - exists res, None, t, w'. done.
  - exists res, err, t, w'. split; [done|]. intros Hok. done.
Qed.

(** *** The stages of the handler *)

Lemma extractProxyConf_trigger (s : Threescale ProxyConfigCache) (cfg : Params)
    (c : ThreeScaleClient) :
  extractProxyConf s cfg c = trigger (Client:=Client) (extractProxyConf_call s cfg c).
Proof. unfold extractProxyConf, extractProxyConf_call. by destruct (systemCache (conf s)). Qed.

(** A request whose configuration was decoded and whose service id is
    settled: the handler is the chain of calls below, from the construction
    of the system client to the decision. *)
Lemma HandleAuthorization_resolved (s : Threescale ProxyConfigCache)
    (r : HandleAuthorizationRequest) (cfg : Params) :
  parseConfigParams Params_Unmarshal r = (Some cfg, None) →
  ¬ (ServiceId cfg = "" ∧ Service (Action (Instance r)) = "") →
  handle s r =
    Call (BuildSystemClient (SystemUrl cfg))
      (λ '(systemClient, err),
         if decide (err ≠ None) then
           out (rpcStatusErrorHandler "error building HTTP client for 3scale system"
                  WithInvalidArgument err) CheckResult_zero
         else
           Call (extractProxyConf_call s (resolved cfg r) systemClient)
             (λ '(proxyConfElement, err),
                if decide (err ≠ None) then
                  out (rpcStatusErrorHandler
                         "currently unable to fetch required data from 3scale system"
                         WithUnavailable err) CheckResult_zero
                else
                  Call (BuildBackendClient (backendURL_of cfg proxyConfElement))
                    (λ '(backendClient, err),
                       if decide (err ≠ None) then
                         out (rpcStatusErrorHandler "error creating 3scale backend client"
                                WithInvalidArgument err) CheckResult_zero
                       else
                         Prog_bind
                           (λ status, Ret (mk_CheckResult status 0 (-1), err))
                           (authorize (ServiceId (resolved cfg r)) (Instance r)
                              (PCE_ProxyConfig proxyConfElement) backendClient)))).
Proof.
  intros Hparse Hid.
  unfold HandleAuthorization. rewrite Hparse.
  rewrite decide_False by (intros ?; done). simpl.
  unfold resolved, extractProxyConf, extractProxyConf_call.
  destruct (decide (ServiceId cfg = "")) as [H1|H1];
    [destruct (decide (Service (Action (Instance r)) = "")) as [H2|H2]|].
  - by destruct Hid.
  - by destruct (systemCache (conf s)).
  - by destruct (systemCache (conf s)).
Qed.

Lemma HandleAuthorization_unparsed {W : Type} (h : Env W) (w : W) s r cfg e :
  parseConfigParams Params_Unmarshal r = (cfg, Some e) →
  run h (handle s r) w =
    Some ((mk_CheckResult (mk_rpc_Status INTERNAL e) 0 0, Some e), [], w).
Proof.
  intros Hparse. unfold HandleAuthorization. rewrite Hparse.
  by rewrite decide_True.
Qed.

Lemma HandleAuthorization_no_service_id {W : Type} (h : Env W) (w : W) s r cfg :
  parseConfigParams Params_Unmarshal r = (Some cfg, None) →
  ServiceId cfg = "" →
  Service (Action (Instance r)) = "" →
  run h (handle s r) w =
    Some ((mk_CheckResult
             (mk_rpc_Status INVALID_ARGUMENT "error. No Service ID provided ") 0 0,
           Some "error. No Service ID provided "), [], w).
Proof.
  intros Hparse Hid Hsv. unfold HandleAuthorization. rewrite Hparse.
  rewrite decide_False by (intros ?; done). simpl.
  rewrite (decide_True _ _ Hid). by rewrite (decide_True _ _ Hsv).
Qed.

Lemma HandleAuthorization_system_client_failure {W : Type} (h : Env W) (w w1 : W)
    s r cfg c e :
  parseConfigParams Params_Unmarshal r = (Some cfg, None) →
  ¬ (ServiceId cfg = "" ∧ Service (Action (Instance r)) = "") →
  h _ (BuildSystemClient (SystemUrl cfg)) w = ((c, Some e), w1) →
  run h (handle s r) w =
    Some ((mk_CheckResult
             (mk_rpc_Status INVALID_ARGUMENT
                ("error building HTTP client for 3scale system - " +:+ e)) 0 0,
           Some ("error building HTTP client for 3scale system - " +:+ e)),
          [mk_Called (BuildSystemClient (SystemUrl cfg))], w1).
Proof.
  intros Hparse Hid Hsys.
  rewrite (HandleAuthorization_resolved s r cfg) by done.
  rewrite run_Call, Hsys. cbv beta iota.
  rewrite decide_True by done.
  by rewrite run_out_message.
Qed.

Lemma HandleAuthorization_fetch_failure {W : Type} (h : Env W) (w w1 w2 : W)
    s r cfg c pce e :
  parseConfigParams Params_Unmarshal r = (Some cfg, None) →
  ¬ (ServiceId cfg = "" ∧ Service (Action (Instance r)) = "") →
  h _ (BuildSystemClient (SystemUrl cfg)) w = ((c, None), w1) →
  h _ (extractProxyConf_call s (resolved cfg r) c) w1 = ((pce, Some e), w2) →
  run h (handle s r) w =
    Some ((mk_CheckResult
             (mk_rpc_Status UNAVAILABLE
                ("currently unable to fetch required data from 3scale system - " +:+ e)) 0 0,
           Some ("currently unable to fetch required data from 3scale system - " +:+ e)),
          [mk_Called (BuildSystemClient (SystemUrl cfg));
           mk_Called (extractProxyConf_call s (resolved cfg r) c)], w2).
Proof.
  intros Hparse Hid Hsys Hfetch.
  rewrite (HandleAuthorization_resolved s r cfg) by done.
  rewrite run_Call, Hsys. cbv beta iota.
  rewrite decide_False by (intros H; by apply H).
  rewrite run_Call, Hfetch. cbv beta iota.
  rewrite decide_True by done.
  by rewrite run_out_message.
Qed.

Lemma HandleAuthorization_backend_client_failure {W : Type} (h : Env W) (w w1 w2 w3 : W)
    s r cfg c pce bc e :
  parseConfigParams Params_Unmarshal r = (Some cfg, None) →
  ¬ (ServiceId cfg = "" ∧ Service (Action (Instance r)) = "") →
  h _ (BuildSystemClient (SystemUrl cfg)) w = ((c, None), w1) →
  h _ (extractProxyConf_call s (resolved cfg r) c) w1 = ((pce, None), w2) →
  h _ (BuildBackendClient (backendURL_of cfg pce)) w2 = ((bc, Some e), w3) →
  run h (handle s r) w =
    Some ((mk_CheckResult
             (mk_rpc_Status INVALID_ARGUMENT
                ("error creating 3scale backend client - " +:+ e)) 0 0,
           Some ("error creating 3scale backend client - " +:+ e)),
          [mk_Called (BuildSystemClient (SystemUrl cfg));
           mk_Called (extractProxyConf_call s (resolved cfg r) c);
           mk_Called (BuildBackendClient (backendURL_of cfg pce))], w3).
Proof.
  intros Hparse Hid Hsys Hfetch Hbc.
  rewrite (HandleAuthorization_resolved s r cfg) by done.
  rewrite run_Call, Hsys. cbv beta iota.
  rewrite decide_False by (intros H; by apply H).
  rewrite run_Call, Hfetch. cbv beta iota.
  rewrite decide_False by (intros H; by apply H).
  rewrite run_Call, Hbc. cbv beta iota.
  rewrite decide_True by done.
  by rewrite run_out_message.
Qed.

(** When the four stages before it succeed, the handler returns what the
    decision of [isAuthorized] gives for the settled service id, with the
    hints set and a nil error, after the calls of the stages and of the
    decision. *)
Lemma HandleAuthorization_decision {W : Type} (h : Env W) (w w1 w2 w3 w4 : W)
    s r cfg c pce bc st ta :
  parseConfigParams Params_Unmarshal r = (Some cfg, None) →
  ¬ (ServiceId cfg = "" ∧ Service (Action (Instance r)) = "") →
  h _ (BuildSystemClient (SystemUrl cfg)) w = ((c, None), w1) →
  h _ (extractProxyConf_call s (resolved cfg r) c) w1 = ((pce, None), w2) →
  h _ (BuildBackendClient (backendURL_of cfg pce)) w2 = ((bc, None), w3) →
  run h (authorize (ServiceId (resolved cfg r)) (Instance r) (PCE_ProxyConfig pce) bc) w3 =
    Some (st, ta, w4) →
  run h (handle s r) w =
    Some ((mk_CheckResult st 0 (-1), None),
          mk_Called (BuildSystemClient (SystemUrl cfg))
          :: mk_Called (extractProxyConf_call s (resolved cfg r) c)
          :: mk_Called (BuildBackendClient (backendURL_of cfg pce)) :: ta, w4).
Proof.
  intros Hparse Hid Hsys Hfetch Hbc Hauth.
  rewrite (HandleAuthorization_resolved s r cfg) by done.
  rewrite run_Call, Hsys. cbv beta iota.
  rewrite decide_False by (intros H; by apply H).
  rewrite run_Call, Hfetch. cbv beta iota.
  rewrite decide_False by (intros H; by apply H).
  rewrite run_Call, Hbc. cbv beta iota.
  rewrite decide_False by (intros H; by apply H).
  rewrite run_bind, Hauth. simpl. by rewrite app_nil_r.
Qed.

(** The decision, when it gets as far as the backend: the one AuthRep call
    carries the service id it was given. *)
Lemma isAuthorized_run_backend {W : Type} (h : Env W) (w : W)
    svcID request proxyConf client appID appKey userKey :
  Path (Action request) ≠ "" →
  credentials request proxyConf = (appID, appKey, userKey) →
  ¬ (appID = "" ∧ userKey = "") →
  metrics_of (Path (Action request)) (Method (Action request)) proxyConf ≠ ∅ →
  ∃ st w',
    run h (authorize svcID request proxyConf client) w =
      Some (st,
            [mk_Called
               (AuthRep
                  {| Auth := {|
                       Auth_Type := BackendAuthenticationType (ProxyConfig_Content proxyConf);
                       Auth_Value :=
                         BackendAuthenticationValue (ProxyConfig_Content proxyConf) |};
                     ServiceID := svcID;
                     Req_Transaction := {|
                       Tx_Metrics :=
                         metrics_of (Path (Action request)) (Method (Action request))
                           proxyConf;
                       Tx_Params :=
                         {| AppID := appID; AppKey := appKey; UserKey := userKey |} |} |}
                  client)], w').
Proof.
  intros Hp Hc Hcred Hm.
  rewrite (isAuthorized_calls_backend _ _ _ _ appID appKey userKey) by done.
  rewrite run_Call. destruct (h _ _ w) as [[resp e] w1].
  rewrite apiRespConverter_Ret. simpl. by eexists _, _.
Qed.

(** C8, as the code has it. The handler always returns a result with
    validity duration 0, and the validity use count goes with the stage at
    which it stopped.

    - It returns a nil error with use count -1, or a non-nil error with a
      status other than OK, the use count 0 of the zero value and no backend
      call made.
    - Configuration parsing fails: Internal with the parsing error, hints
      (0, 0), no call.
    - Service id empty in the configuration and in the request:
      InvalidArgument, hints (0, 0), no call.
    - The system client is not built: InvalidArgument, hints (0, 0), after
      that one call.
    - The proxy configuration is not fetched: Unavailable, hints (0, 0),
      after the two calls.
    - The backend client is not built: InvalidArgument, hints (0, 0), after
      the three calls.
    - All four stages succeed: the result is the status that [isAuthorized]
      decides for the settled service id, with hints (0, -1) and a nil
      error. *)
Theorem HandleAuthorization_validity_hints {W : Type} (h : Env W) (w : W) s r :
  let returned :=
    run h (HandleAuthorization regexp_MatchString strings_ToUpper Params_Unmarshal s r) w in
  (∃ res err t w',
     returned = Some ((res, err), t, w')
     ∧ ValidDuration res = 0
     ∧ ((err = None ∧ ValidUseCount res = -1)
        ∨ (err ≠ None ∧ ValidUseCount res = 0 ∧ Code (Status res) ≠ OK
           ∧ authRep_requests t = [])))
  ∧ (∀ cfg e,
       parseConfigParams Params_Unmarshal r = (cfg, Some e) →
       returned = Some ((mk_CheckResult (mk_rpc_Status INTERNAL e) 0 0, Some e), [], w))
  ∧ (∀ cfg,
       parseConfigParams Params_Unmarshal r = (Some cfg, None) →
       (ServiceId cfg = "" ∧ Service (Action (Instance r)) = "" →
        returned =
          Some ((mk_CheckResult
                   (mk_rpc_Status INVALID_ARGUMENT "error. No Service ID provided ") 0 0,
                 Some "error. No Service ID provided "), [], w))
       ∧ (¬ (ServiceId cfg = "" ∧ Service (Action (Instance r)) = "") →
          ∀ c e1 w1,
            h _ (BuildSystemClient (SystemUrl cfg)) w = ((c, e1), w1) →
            (∀ e, e1 = Some e →
               returned =
                 Some ((mk_CheckResult
                          (mk_rpc_Status INVALID_ARGUMENT
                             ("error building HTTP client for 3scale system - " +:+ e)) 0 0,
                        Some ("error building HTTP client for 3scale system - " +:+ e)),
                       [mk_Called (BuildSystemClient (SystemUrl cfg))], w1))
            ∧ (e1 = None →
               ∀ pce e2 w2,
                 h _ (extractProxyConf_call s (resolved cfg r) c) w1 = ((pce, e2), w2) →
                 (∀ e, e2 = Some e →
                    returned =
                      Some ((mk_CheckResult
                               (mk_rpc_Status UNAVAILABLE
                                  ("currently unable to fetch required data from 3scale system - "
                                   +:+ e)) 0 0,
                             Some ("currently unable to fetch required data from 3scale system - "
                                   +:+ e)),
                            [mk_Called (BuildSystemClient (SystemUrl cfg));
                             mk_Called (extractProxyConf_call s (resolved cfg r) c)], w2))
                 ∧ (e2 = None →
                    ∀ bc e3 w3,
                      h _ (BuildBackendClient (backendURL_of cfg pce)) w2 = ((bc, e3), w3) →
                      (∀ e, e3 = Some e →
                         returned =
                           Some ((mk_CheckResult
                                    (mk_rpc_Status INVALID_ARGUMENT
                                       ("error creating 3scale backend client - " +:+ e)) 0 0,
                                  Some ("error creating 3scale backend client - " +:+ e)),
                                 [mk_Called (BuildSystemClient (SystemUrl cfg));
                                  mk_Called (extractProxyConf_call s (resolved cfg r) c);
                                  mk_Called (BuildBackendClient (backendURL_of cfg pce))], w3))
                      ∧ (e3 = None →
                         ∀ st ta w4,
                           run h (isAuthorized regexp_MatchString strings_ToUpper
                                    (ServiceId (resolved cfg r)) (Instance r)
                                    (PCE_ProxyConfig pce) bc) w3 = Some (st, ta, w4) →
                           returned =
                             Some ((mk_CheckResult st 0 (-1), None),
                                   mk_Called (BuildSystemClient (SystemUrl cfg))
                                   :: mk_Called (extractProxyConf_call s (resolved cfg r) c)
                                   :: mk_Called (BuildBackendClient (backendURL_of cfg pce))
                                   :: ta, w4)))))).
Proof.
  intros returned. subst returned.
  split; [apply HandleAuthorization_run|].
  split; [intros cfg e Hparse; by apply (HandleAuthorization_unparsed h w s r cfg)|].
  intros cfg Hparse. split.
  { intros [Hid Hsv]. by apply (HandleAuthorization_no_service_id h w s r cfg). }
  intros Hid c e1 w1 Hsys. split.
  { intros e ->. by apply (HandleAuthorization_system_client_failure h w w1 s r cfg c). }
  intros -> pce e2 w2 Hfetch. split.
  { intros e ->. by apply (HandleAuthorization_fetch_failure h w w1 w2 s r cfg c pce). }
  intros -> bc e3 w3 Hbc. split.
  { intros e ->.
    by apply (HandleAuthorization_backend_client_failure h w w1 w2 w3 s r cfg c pce bc). }
  intros -> st ta w4 Hauth.
  by apply (HandleAuthorization_decision h w w1 w2 w3 w4 s r cfg c pce bc).
Qed.

(** C9. With an adapter configuration that decodes to an empty service
    id.

    When the action of the request names a service, the handler goes on to
    build the system client, and every service id it hands on is that name.
    Once the system client is built, the next call is the fetch of the proxy
    configuration, made with the configuration in which the service id is the
    action's service. Once the proxy configuration is fetched and the backend
    client built, a request with a path, a credential and a matching rule
    ends with the AuthRep call, whose request names the action's service as
    its service id.

    When the action names no service, the handler returns InvalidArgument
    with the message "error. No Service ID provided " and a non-nil error,
    having made no call at all. *)
Theorem HandleAuthorization_service_id {W : Type} (h : Env W) (w : W) s r any cfg :
  AdapterConfig r = Some any →
  Params_Unmarshal (Any_Value any) = (cfg, None) →
  ServiceId cfg = "" →
  (Service (Action (Instance r)) ≠ "" →
   let cfg' := with_ServiceId cfg (Service (Action (Instance r))) in
   (∃ res err t w',
      run h (HandleAuthorization regexp_MatchString strings_ToUpper Params_Unmarshal s r) w =
        Some ((res, err), mk_Called (BuildSystemClient (SystemUrl cfg)) :: t, w')
      ∧ Forall (λ id, id = Service (Action (Instance r))) (service_ids_used t))
   ∧ (∀ c w1,
        h _ (BuildSystemClient (SystemUrl cfg)) w = ((c, None), w1) →
        (∃ res err t w',
           run h (HandleAuthorization regexp_MatchString strings_ToUpper Params_Unmarshal s r) w =
             Some ((res, err),
                   mk_Called (BuildSystemClient (SystemUrl cfg))
                   :: mk_Called (extractProxyConf_call s cfg' c) :: t, w')
           ∧ service_ids_used
               (mk_Called (BuildSystemClient (SystemUrl cfg))
                :: mk_Called (extractProxyConf_call s cfg' c) :: t) =
               Service (Action (Instance r)) :: service_ids_used t)
        ∧ (∀ pce w2 bc w3 appID appKey userKey,
             h _ (extractProxyConf_call s cfg' c) w1 = ((pce, None), w2) →
             h _ (BuildBackendClient (backendURL_of cfg pce)) w2 = ((bc, None), w3) →
             Path (Action (Instance r)) ≠ "" →
             credentials (Instance r) (PCE_ProxyConfig pce) = (appID, appKey, userKey) →
             ¬ (appID = "" ∧ userKey = "") →
             generateMetrics regexp_MatchString strings_ToUpper
               (Path (Action (Instance r))) (Method (Action (Instance r)))
               (PCE_ProxyConfig pce) ≠ ∅ →
             ∃ st w4,
               run h (HandleAuthorization regexp_MatchString strings_ToUpper
                        Params_Unmarshal s r) w =
                 Some ((mk_CheckResult st 0 (-1), None),
                       [mk_Called (BuildSystemClient (SystemUrl cfg));
                        mk_Called (extractProxyConf_call s cfg' c);
                        mk_Called (BuildBackendClient (backendURL_of cfg pce));
                        mk_Called
                          (AuthRep
                             {| Auth := {|
                                  Auth_Type :=
                                    BackendAuthenticationType
                                      (ProxyConfig_Content (PCE_ProxyConfig pce));
                                  Auth_Value :=
                                    BackendAuthenticationValue
                                      (ProxyConfig_Content (PCE_ProxyConfig pce)) |};
                                ServiceID := Service (Action (Instance r));
                                Req_Transaction := {|
                                  Tx_Metrics :=
                                    generateMetrics regexp_MatchString strings_ToUpper
                                      (Path (Action (Instance r)))
                                      (Method (Action (Instance r))) (PCE_ProxyConfig pce);
                                  Tx_Params := {| AppID := appID; AppKey := appKey;
                                                  UserKey := userKey |} |} |}
                             bc)], w4))))
  ∧ (Service (Action (Instance r)) = "" →
     run h (HandleAuthorization regexp_MatchString strings_ToUpper Params_Unmarshal s r) w =
       Some ((mk_CheckResult
                (mk_rpc_Status INVALID_ARGUMENT "error. No Service ID provided ") 0 0,
              Some "error. No Service ID provided "), [], w)).
Proof.
  intros Hany Hcfg Hid.
  assert (parseConfigParams Params_Unmarshal r = (Some cfg, None)) as Hparse.
  { unfold parseConfigParams. by rewrite Hany, Hcfg. }
  split; intros Hsv.
  2:{ by apply (HandleAuthorization_no_service_id h w s r cfg). }
  assert (¬ (ServiceId cfg = "" ∧ Service (Action (Instance r)) = "")) as Hnot
    by (by intros [_ ?]).
  assert (resolved cfg r = with_ServiceId cfg (Service (Action (Instance r)))) as Hres
    by (unfold resolved; by rewrite decide_True).
  (* the runs, stage by stage *)
  assert (∀ c w1,
            h _ (BuildSystemClient (SystemUrl cfg)) w = ((c, None), w1) →
            ∃ res err t w',
              run h (handle s r) w =
                Some ((res, err),
                      mk_Called (BuildSystemClient (SystemUrl cfg))
                      :: mk_Called (extractProxyConf_call s
                                      (with_ServiceId cfg (Service (Action (Instance r)))) c)
                      :: t, w')
              ∧ Forall (λ id, id = Service (Action (Instance r))) (service_ids_used t))
    as Hfrom_fetch.
  { intros c w1 Hsys.
    destruct (h _ (extractProxyConf_call s (resolved cfg r) c) w1) as [[pce [e|]] w2]
      eqn:Hfetch.
    { rewrite (HandleAuthorization_fetch_failure h w w1 w2 s r cfg c pce e) by done.
      rewrite Hres. do 4 eexists. split; [reflexivity|]. constructor. }
    destruct (h _ (BuildBackendClient (backendURL_of cfg pce)) w2) as [[bc [e|]] w3]
      eqn:Hbc.
    { rewrite (HandleAuthorization_backend_client_failure h w w1 w2 w3 s r cfg c pce bc e)
        by done.
      rewrite Hres. do 4 eexists. split; [reflexivity|]. constructor. }
    destruct (isAuthorized_run h w3 (ServiceId (resolved cfg r)) (Instance r)
                (PCE_ProxyConfig pce) bc) as (st & ta & w4 & Hauth & Hta).
    rewrite (HandleAuthorization_decision h w w1 w2 w3 w4 s r cfg c pce bc st ta) by done.
    rewrite Hres. do 4 eexists. split; [reflexivity|].
    destruct Hta as [->|(req & -> & Hreq & _)]; [constructor|].
    rewrite Hres in Hreq. simpl. rewrite Hreq. by repeat constructor. }
  intros cfg'. subst cfg'. split; [|intros c w1 Hsys; split].
  - destruct (h _ (BuildSystemClient (SystemUrl cfg)) w) as [[c [e|]] w1] eqn:Hsys.
    { rewrite (HandleAuthorization_system_client_failure h w w1 s r cfg c e) by done.
      do 4 eexists. split; [reflexivity|]. constructor. }
    destruct (Hfrom_fetch c w1 eq_refl) as (res & err & t & w' & -> & Hids).
    do 4 eexists. split; [reflexivity|].
    unfold extractProxyConf_call.
    destruct (systemCache (conf s)) as [cache|]; by constructor.
  - destruct (Hfrom_fetch c w1 Hsys) as (res & err & t & w' & -> & _).
    do 4 eexists. split; [reflexivity|].
    unfold extractProxyConf_call.
    by destruct (systemCache (conf s)) as [cache|].
  - intros pce w2 bc w3 appID appKey userKey Hfetch Hbc Hp Hc Hcred Hm.
    rewrite <- Hres in Hfetch.
    destruct (isAuthorized_run_backend h w3 (ServiceId (resolved cfg r)) (Instance r)
                (PCE_ProxyConfig pce) bc appID appKey userKey Hp Hc Hcred Hm)
      as (st & w4 & Hauth).
    exists st, w4.
    rewrite (HandleAuthorization_decision h w w1 w2 w3 w4 s r cfg c pce bc st _ Hparse Hnot
               Hsys Hfetch Hbc Hauth).
    by rewrite Hres.
Qed.

End Properties.

(** * The theorems at concrete requests *)

Lemma generateMetrics_accumulates_witness :
  generateMetrics literal_MatchString ascii_ToUpper "/v1/widgets" "get"
    (sample_conf "1" [mk_ProxyRule "GET" "/v1/widgets" "hits" 1;
                      mk_ProxyRule "Get" "/widgets" "hits" 2])
    !! "hits" = Some 3.
Proof.
  apply (proj2 (generateMetrics_accumulates literal_MatchString ascii_ToUpper)
           "/v1/widgets" "get" _
           (mk_ProxyRule "GET" "/v1/widgets" "hits" 1)
           (mk_ProxyRule "Get" "/widgets" "hits" 2)); reflexivity.
Defined.

Lemma generateMetrics_rule_contribution_witness :
  (let before := [widgets_rule] in
   let pr := mk_ProxyRule "GET" "(" "hits" 5 in
   let after := [mk_ProxyRule "get" "widgets" "hits" 2] in
   generateMetrics literal_MatchString ascii_ToUpper "/v1/widgets" "GET"
     (sample_conf "1" (before ++ pr :: after)) =
   generateMetrics literal_MatchString ascii_ToUpper "/v1/widgets" "GET"
     (sample_conf "1" (before ++ after)))
  ∧ (let before := [widgets_rule] in
     let pr := mk_ProxyRule "get" "widgets" "hits" 2 in
     let after := [mk_ProxyRule "POST" "/v1" "posts" 1] in
     ∀ name,
       generateMetrics literal_MatchString ascii_ToUpper "/api/v1/widgets/7" "GET"
         (sample_conf "1" (before ++ pr :: after)) !! name =
       if decide (name = "hits")
       then Some (default 0
                    (generateMetrics literal_MatchString ascii_ToUpper "/api/v1/widgets/7" "GET"
                       (sample_conf "1" (before ++ after)) !! name) + 2)
       else generateMetrics literal_MatchString ascii_ToUpper "/api/v1/widgets/7" "GET"
              (sample_conf "1" (before ++ after)) !! name).
Proof.
  split.
  - exact (generateMetrics_rule_contribution literal_MatchString ascii_ToUpper
             "/v1/widgets" "GET"
             (sample_conf "1" ([widgets_rule] ++ mk_ProxyRule "GET" "(" "hits" 5
                                 :: [mk_ProxyRule "get" "widgets" "hits" 2]))
             (sample_conf "1" ([widgets_rule] ++ [mk_ProxyRule "get" "widgets" "hits" 2]))
             [widgets_rule] (mk_ProxyRule "GET" "(" "hits" 5)
             [mk_ProxyRule "get" "widgets" "hits" 2] eq_refl eq_refl).
  - exact (generateMetrics_rule_contribution literal_MatchString ascii_ToUpper
             "/api/v1/widgets/7" "GET"
             (sample_conf "1" ([widgets_rule] ++ mk_ProxyRule "get" "widgets" "hits" 2
                                 :: [mk_ProxyRule "POST" "/v1" "posts" 1]))
             (sample_conf "1" ([widgets_rule] ++ [mk_ProxyRule "POST" "/v1" "posts" 1]))
             [widgets_rule] (mk_ProxyRule "get" "widgets" "hits" 2)
             [mk_ProxyRule "POST" "/v1" "posts" 1] eq_refl eq_refl).
Defined.

Lemma isAuthorized_app_identifier_witness :
  let subject :=
    sample_subject "" [("app_id", Value_StringValue "forged");
                       ("client_id", Value_StringValue "abc")] in
  let request := sample_instance (Some subject) "" "GET" "/v1/widgets" in
  let req :=
    {| Auth := {| Auth_Type := "service_token"; Auth_Value := "secret" |};
       ServiceID := "123";
       Req_Transaction := {|
         Tx_Metrics := {[ "hits" := 1 ]};
         Tx_Params := {| AppID := "abc"; AppKey := ""; UserKey := "" |} |} |} in
  run (sample_env widgets_pce granted)
    (isAuthorized literal_MatchString ascii_ToUpper "123" request
       (sample_conf "oauth" [widgets_rule]) tt) tt =
    Some (status_OK, [mk_Called (AuthRep req tt)], tt)
  ∧ Forall (λ req, AppID (Tx_Params (Req_Transaction req)) = "abc") [req].
Proof.
  intros subject request req.
  assert (run (sample_env widgets_pce granted)
            (isAuthorized literal_MatchString ascii_ToUpper "123" request
               (sample_conf "oauth" [widgets_rule]) tt) tt =
          Some (status_OK, [mk_Called (AuthRep req tt)], tt)) as Hrun
    by (vm_compute; reflexivity).
  split; [exact Hrun|].
  exact (proj1 (isAuthorized_app_identifier literal_MatchString ascii_ToUpper
                  (sample_env widgets_pce granted) tt "123" request
                  (sample_conf "oauth" [widgets_rule]) tt subject
                  status_OK [mk_Called (AuthRep req tt)] tt eq_refl Hrun) eq_refl).
Defined.

Lemma isAuthorized_missing_credentials_witness :
  let request :=
    sample_instance (Some (sample_subject "" [("app_key", Value_StringValue "k")]))
      "" "GET" "/v1/widgets" in
  credentials request (sample_conf "1" [widgets_rule]) = ("", "k", "")
  ∧ run (sample_env widgets_pce granted)
      (isAuthorized literal_MatchString ascii_ToUpper "123" request
         (sample_conf "1" [widgets_rule]) tt) tt =
      Some (mk_rpc_Status PERMISSION_DENIED
              "no auth credentials provided or provided in invalid location", [], tt).
Proof.
  intros request. split; [reflexivity|].
  apply (isAuthorized_missing_credentials literal_MatchString ascii_ToUpper
           (sample_env widgets_pce granted) tt "123" request
           (sample_conf "1" [widgets_rule]) tt "k").
  - discriminate.
  - reflexivity.
Defined.

Lemma isAuthorized_no_matching_rule_witness :
  let request :=
    sample_instance (Some (sample_subject "" [("app_id", Value_StringValue "abc")]))
      "" "POST" "/v1/widgets" in
  ∃ st,
    run (sample_env widgets_pce granted)
      (isAuthorized literal_MatchString ascii_ToUpper "123" request
         (sample_conf "1" [widgets_rule]) tt) tt = Some (st, [], tt)
    ∧ Code st = PERMISSION_DENIED
    ∧ contains (Message st) "POST"
    ∧ contains (Message st) "/v1/widgets".
Proof.
  intros request.
  apply (isAuthorized_no_matching_rule literal_MatchString ascii_ToUpper
           (sample_env widgets_pce granted) tt "123" request
           (sample_conf "1" [widgets_rule]) tt "abc" "" "").
  - discriminate.
  - reflexivity.
  - intros [H _]. discriminate H.
  - repeat constructor.
Defined.

Lemma isAuthorized_without_subject_witness :
  let request := sample_instance None "" "GET" "/v1/widgets" in
  credentials request (sample_conf "oauth" [widgets_rule]) = ("", "", "")
  ∧ run (sample_env widgets_pce granted)
      (isAuthorized literal_MatchString ascii_ToUpper "123" request
         (sample_conf "oauth" [widgets_rule]) tt) tt =
      Some (mk_rpc_Status PERMISSION_DENIED
              "no auth credentials provided or provided in invalid location", [], tt).
Proof.
  intros request.
  apply (isAuthorized_without_subject literal_MatchString ascii_ToUpper
           (sample_env widgets_pce granted) tt "123" request
           (sample_conf "oauth" [widgets_rule]) tt).
  - discriminate.
  - reflexivity.
Defined.

Lemma HandleAuthorization_service_id_witness :
  let with_service :=
    sample_request
      (sample_instance (Some (sample_subject "" [("app_id", Value_StringValue "abc")]))
         "svc-42" "GET" "/v1/widgets") in
  let without_service :=
    sample_request
      (sample_instance (Some (sample_subject "" [("app_id", Value_StringValue "abc")]))
         "" "GET" "/v1/widgets") in
  run (sample_env widgets_pce granted)
    (HandleAuthorization literal_MatchString ascii_ToUpper
       (sample_Unmarshal (sample_params "")) no_cache with_service) tt =
    Some ((mk_CheckResult status_OK 0 (-1), None),
          [mk_Called (BuildSystemClient "https://example-admin.3scale.net");
           mk_Called (GetFromRemote (sample_params "svc-42") tt);
           mk_Called (BuildBackendClient "https://su1.3scale.net");
           mk_Called
             (AuthRep
                {| Auth := {| Auth_Type := "service_token"; Auth_Value := "secret" |};
                   ServiceID := "svc-42";
                   Req_Transaction := {|
                     Tx_Metrics := {[ "hits" := 1 ]};
                     Tx_Params := {| AppID := "abc"; AppKey := ""; UserKey := "" |} |} |}
                tt)], tt)
  ∧ run (sample_env widgets_pce granted)
      (HandleAuthorization literal_MatchString ascii_ToUpper
         (sample_Unmarshal (sample_params "")) no_cache without_service) tt =
      Some ((mk_CheckResult
               (mk_rpc_Status INVALID_ARGUMENT "error. No Service ID provided ") 0 0,
             Some "error. No Service ID provided "), [], tt).
Proof.
  intros with_service without_service. split.
  - destruct (proj1 (HandleAuthorization_service_id literal_MatchString ascii_ToUpper
                       (sample_Unmarshal (sample_params ""))
                       (sample_env widgets_pce granted) tt no_cache with_service
                       (mk_Any "" []) (sample_params "") eq_refl eq_refl eq_refl)
                ltac:(discriminate)) as [_ Hcalls].
    destruct (Hcalls tt tt eq_refl) as [_ Hbackend].
    destruct (Hbackend widgets_pce tt tt tt "abc" "" ""%string eq_refl eq_refl
                ltac:(discriminate) eq_refl
                ltac:(intros [H _]; discriminate H)
                ltac:(intros H; apply (f_equal (λ m : Metrics, m !! "hits")) in H;
                      vm_compute in H; discriminate H))
      as (st & w4 & Hrun).
    pose proof Hrun as Hst. vm_compute in Hst.
    injection Hst as <- <-. exact Hrun.
  - apply (proj2 (HandleAuthorization_service_id literal_MatchString ascii_ToUpper
                    (sample_Unmarshal (sample_params ""))
                    (sample_env widgets_pce granted) tt no_cache without_service
                    (mk_Any "" []) (sample_params "") eq_refl eq_refl eq_refl)).
    reflexivity.
Defined.

(** The hints at the two ends of the handler: a granted request, and the
    same request when the system API does not answer. *)
Lemma HandleAuthorization_validity_hints_witness :
  let r :=
    sample_request
      (sample_instance (Some (sample_subject "" [("app_id", Value_StringValue "abc")]))
         "" "GET" "/v1/widgets") in
  let handler :=
    HandleAuthorization literal_MatchString ascii_ToUpper
      (sample_Unmarshal (sample_params "123")) no_cache r in
  let req :=
    {| Auth := {| Auth_Type := "service_token"; Auth_Value := "secret" |};
       ServiceID := "123";
       Req_Transaction := {|
         Tx_Metrics := {[ "hits" := 1 ]};
         Tx_Params := {| AppID := "abc"; AppKey := ""; UserKey := "" |} |} |} in
  run (sample_env widgets_pce granted) handler tt =
    Some ((mk_CheckResult status_OK 0 (-1), None),
          [mk_Called (BuildSystemClient "https://example-admin.3scale.net");
           mk_Called (GetFromRemote (sample_params "123") tt);
           mk_Called (BuildBackendClient "https://su1.3scale.net");
           mk_Called (AuthRep req tt)], tt)
  ∧ run (faulty_env None (Some "timeout") None widgets_pce granted) handler tt =
      Some ((mk_CheckResult
               (mk_rpc_Status UNAVAILABLE
                  "currently unable to fetch required data from 3scale system - timeout") 0 0,
             Some "currently unable to fetch required data from 3scale system - timeout"),
            [mk_Called (BuildSystemClient "https://example-admin.3scale.net");
             mk_Called (GetFromRemote (sample_params "123") tt)], tt).
Proof.
  intros r handler req. split.
  - destruct (HandleAuthorization_validity_hints literal_MatchString ascii_ToUpper
                (sample_Unmarshal (sample_params "123"))
                (sample_env widgets_pce granted) tt no_cache r) as (_ & _ & Hparsed).
    destruct (Hparsed (sample_params "123") eq_refl) as [_ Hsettled].
    destruct (Hsettled ltac:(intros [H _]; discriminate H) tt None tt eq_refl)
      as [_ Hsystem].
    destruct (Hsystem eq_refl widgets_pce None tt eq_refl) as [_ Hfetched].
    destruct (Hfetched eq_refl tt None tt eq_refl) as [_ Hbuilt].
    apply (Hbuilt eq_refl status_OK [mk_Called (AuthRep req tt)] tt).
    vm_compute; reflexivity.
  - destruct (HandleAuthorization_validity_hints literal_MatchString ascii_ToUpper
                (sample_Unmarshal (sample_params "123"))
                (faulty_env None (Some "timeout") None widgets_pce granted) tt no_cache r)
      as (_ & _ & Hparsed).
    destruct (Hparsed (sample_params "123") eq_refl) as [_ Hsettled].
    destruct (Hsettled ltac:(intros [H _]; discriminate H) tt None tt eq_refl)
      as [_ Hsystem].
    destruct (Hsystem eq_refl widgets_pce (Some "timeout"%string) tt eq_refl) as [Hfailed _].
    apply (Hfailed "timeout"%string eq_refl).
Defined.

(** A granted request: the rule [widgets_rule], [GET /v1/widgets] with
    application identifier ["abc"], and a backend that grants. *)
Example HandleAuthorization_granted :
  let r :=
    sample_request
      (sample_instance (Some (sample_subject "" [("app_id", Value_StringValue "abc")]))
         "" "GET" "/v1/widgets") in
  ∃ t,
    run (sample_env widgets_pce granted)
      (HandleAuthorization literal_MatchString ascii_ToUpper
         (sample_Unmarshal (sample_params "123")) no_cache r) tt =
      Some ((mk_CheckResult status_OK 0 (-1), None), t, tt)
    ∧ (Tx_Metrics ∘ Req_Transaction) <$> authRep_requests t = [{[ "hits" := 1 ]}].
Proof. eexists. split; vm_compute; reflexivity. Qed.

(** C8 does not hold of every request: one that comes without an adapter
    configuration fails at configuration parsing, and the result returned
    with the error has validity use count 0, which is not negative. *)
Lemma HandleAuthorization_validity_hints_counterexample :
  let r :=
    {| Instance := sample_instance None "" "GET" "/v1/widgets";
       AdapterConfig := None;
       DedupId := "" |} in
  ∃ res err,
    run (sample_env widgets_pce granted)
      (HandleAuthorization literal_MatchString ascii_ToUpper
         (sample_Unmarshal (sample_params "123")) no_cache r) tt =
      Some ((res, err), [], tt)
    ∧ Code (Status res) = INTERNAL
    ∧ ValidUseCount res = 0
    ∧ ¬ (ValidDuration res = 0 ∧ ValidUseCount res < 0).
Proof.
  intros r. eexists _, _. split; [vm_compute; reflexivity|].
  split; [reflexivity|]. split; [reflexivity|].
  simpl. intros [_ H]. lia.
Qed.

(** * The codec of the adapter configuration *)

Section Codec.

Import config.

Lemma to_N_uint8 (x : N) : Byte.to_N (uint8 x) = (x mod 256)%N.
Proof.
  unfold uint8. destruct (Byte.of_N (x mod 256)) as [b|] eqn:E; simpl.
  - by apply Byte.to_of_N.
  - apply Byte.of_N_None_iff in E.
    pose proof (N.mod_upper_bound x 256). lia.
Qed.

Lemma uint8_to_N (b : Byte.byte) : uint8 (Byte.to_N b) = b.
Proof.
  unfold uint8. pose proof (Byte.to_N_bounded b).
  rewrite N.mod_small by lia. by rewrite Byte.of_to_N.
Qed.

Lemma log2_shiftr_fuel (v : N) (fuel : nat) :
  (2 ^ 7 ≤ v)%N → (N.to_nat (N.log2 v) ≤ S fuel)%nat →
  (N.to_nat (N.log2 (N.shiftr v 7)) ≤ fuel)%nat.
Proof.
  intros Hv Hf. rewrite N.log2_shiftr.
  assert (7 ≤ N.log2 v)%N by (apply N.log2_le_pow2; lia). lia.
Qed.

Lemma log2_fuel_pos (v : N) : (2 ^ 7 ≤ v)%N → (N.to_nat (N.log2 v) ≤ 0)%nat → False.
Proof.
  intros Hv Hf. assert (7 ≤ N.log2 v)%N by (apply N.log2_le_pow2; lia). lia.
Qed.

Lemma len_app (xs ys : list Byte.byte) : len (xs ++ ys) = len xs + len ys.
Proof. unfold len. rewrite length_app. lia. Qed.

Lemma len_cons (x : Byte.byte) (xs : list Byte.byte) : len (x :: xs) = 1 + len xs.
Proof. unfold len. simpl. lia. Qed.

Lemma len_nonneg (xs : list Byte.byte) : 0 ≤ len xs.
Proof. unfold len. lia. Qed.

Local Ltac lens := rewrite ?len_app, ?len_cons in *; unfold len in *; simpl length in *.

Lemma store_middle (pre : list Byte.byte) (x b : Byte.byte) (post : list Byte.byte) :
  store (pre ++ x :: post) (len pre) b = Done (pre ++ b :: post).
Proof.
  unfold store. rewrite decide_True.
  - f_equal. unfold len. rewrite Nat2Z.id. by rewrite insert_app_r_alt, Nat.sub_diag by lia.
  - rewrite len_app, len_cons. pose proof (len_nonneg pre). pose proof (len_nonneg post). lia.
Qed.

Lemma store_full (pre : list Byte.byte) (b : Byte.byte) (i : Z) :
  i = len pre → store pre i b = Crash.
Proof. intros ->. unfold store. rewrite decide_False; [done|lia]. Qed.

(** encodeVarintConfig writes the varint in place *)
Lemma encodeVarintConfig_loop_spec (fuel : nat) (v : N) (pre junk : list Byte.byte) :
  (N.to_nat (N.log2 v) ≤ fuel)%nat →
  len (varint_fuel fuel v) ≤ len junk →
  encodeVarintConfig_loop fuel (pre ++ junk) (len pre) v =
    Done (pre ++ varint_fuel fuel v ++ drop (length (varint_fuel fuel v)) junk,
          len pre + len (varint_fuel fuel v)).
Proof.
  revert v pre junk. induction fuel as [|fuel IH]; intros v pre junk Hf Hroom; simpl in *.
  - case_decide as Hv; [by destruct (log2_fuel_pos v)|].
    destruct junk as [|x junk]; [lens; lia|].
    rewrite store_middle. simpl. rewrite drop_0. do 2 f_equal.
  - case_decide as Hv.
    + destruct junk as [|x junk]; [lens; lia|].
      rewrite store_middle. simpl.
      replace (len pre + 1) with (len (pre ++ [uint8 (N.lor (N.land v 127) 128)]))
        by (lens; lia).
      rewrite (cons_middle _ pre junk). rewrite app_assoc.
      rewrite IH.
      * rewrite <- !app_assoc. simpl. do 2 f_equal. lens. lia.
      * by apply log2_shiftr_fuel.
      * lens. lia.
    + destruct junk as [|x junk]; [lens; lia|].
      rewrite store_middle. simpl. rewrite drop_0. do 2 f_equal.
Qed.

Lemma sovConfig_loop_spec (fuel : nat) (n : Z) (v : N) :
  (N.to_nat (N.log2 v) ≤ fuel)%nat →
  sovConfig_loop fuel n v = n + len (varint_fuel fuel v).
Proof.
  revert n v. induction fuel as [|fuel IH]; intros n v Hf; simpl.
  - case_decide as Hz; case_decide as Hv; try (by destruct (log2_fuel_pos v)).
    + unfold len. simpl. lia.
    + exfalso. apply Hz. apply N.shiftr_eq_0. 
      destruct (decide (v = 0%N)) as [->|]; [done|]. 
      assert (N.log2 v < 7)%N; [|lia]. apply N.log2_lt_pow2; lia.
  - case_decide as Hz; case_decide as Hv.
    + exfalso. rewrite N.shiftr_div_pow2 in Hz. 
      assert (1 ≤ v / 2 ^ 7)%N; [|lia]. apply N.div_le_lower_bound; lia.
    + unfold len. simpl. lia.
    + rewrite IH by (by apply log2_shiftr_fuel). rewrite len_cons. lia.
    + exfalso. apply Hz. apply N.shiftr_eq_0.
      destruct (decide (v = 0%N)) as [->|]; [done|]. apply N.log2_lt_pow2; lia.
Qed.

Lemma load_middle (pre : list Byte.byte) (x : Byte.byte) (post : list Byte.byte) :
  load (pre ++ x :: post) (len pre) = Done x.
Proof.
  unfold load. rewrite decide_True by apply len_nonneg.
  unfold len. rewrite Nat2Z.id. by rewrite list_lookup_middle.
Qed.

Lemma low_group_lt (v : N) : (N.land v 127 < 128)%N.
Proof. change 127%N with (N.ones 7). rewrite N.land_ones. apply N.mod_upper_bound. done. Qed.

Lemma low_group_small (v : N) : (v < 128)%N → N.land v 127 = v.
Proof. intros H. change 127%N with (N.ones 7). rewrite N.land_ones. by apply N.mod_small. Qed.

Lemma continuation_byte (v : N) :
  (128 ≤ N.lor (N.land v 127) 128 < 256)%N
  ∧ N.land (N.lor (N.land v 127) 128) 127 = N.land v 127.
Proof.
  pose proof (low_group_lt v) as Hlt.
  assert (0 < N.lor (N.land v 127) 128)%N as Hpos.
  { apply N.neq_0_lt_0. intros [_ H]%N.lor_eq_0_iff. done. }
  assert (N.log2 (N.lor (N.land v 127) 128) = 7%N) as Hlog.
  { rewrite N.log2_lor. change (N.log2 128) with 7%N.
    apply N.max_r.
    destruct (decide (N.land v 127 = 0%N)) as [->|Hnz]; [done|].
    assert (N.log2 (N.land v 127) < 7)%N; [|lia].
    apply N.log2_lt_pow2; [lia|done]. }
  split; [split|].
  - change 128%N with (2 ^ 7)%N at 1. apply N.log2_le_pow2; [done|]. lia.
  - change 256%N with (2 ^ 8)%N. apply N.log2_lt_pow2; [done|lia].
  - apply N.bits_inj. intros n.
    rewrite !N.land_spec, N.lor_spec, N.land_spec.
    change 127%N with (N.ones 7). change 128%N with (2 ^ 7)%N.
    rewrite N.pow2_bits_eqb.
    destruct (N.testbit (N.ones 7) n) eqn:Hm; [|by rewrite !andb_false_r].
    apply N.ones_spec_iff in Hm.
    rewrite (proj2 (N.eqb_neq 7 n)) by lia.
    by destruct (N.testbit v n).
Qed.

Lemma join_groups (v s : N) :
  N.lor (N.shiftl (N.land v 127) s) (N.shiftl (N.shiftr v 7) (s + 7)) = N.shiftl v s.
Proof.
  rewrite (N.add_comm s 7), <- N.shiftl_shiftl, <- N.shiftl_lor. f_equal.
  apply N.bits_inj. intros n.
  rewrite N.lor_spec, N.land_spec.
  change 127%N with (N.ones 7).
  destruct (decide (n < 7)%N) as [Hn|Hn].
  - rewrite N.shiftl_spec_low by done.
    rewrite (proj2 (N.ones_spec_iff 7 n)) by done.
    by rewrite andb_true_r, orb_false_r.
  - rewrite N.ones_spec_high by lia.
    rewrite N.shiftl_spec_high' by lia.
    rewrite N.shiftr_spec'. rewrite andb_false_r. simpl. f_equal. lia.
Qed.

Lemma shiftl_lt_pow2 (v s b : N) : (s ≤ b)%N → (v < 2 ^ (b - s))%N → (N.shiftl v s < 2 ^ b)%N.
Proof.
  intros Hs Hv. rewrite N.shiftl_mul_pow2.
  replace b with ((b - s) + s)%N at 1 by lia. rewrite N.pow_add_r.
  apply N.mul_lt_mono_pos_r; [|done]. apply N.neq_0_lt_0. by apply N.pow_nonzero.
Qed.

Lemma varint_loop_unfold {A : Type} (add : A → N → N → A) (k : nat)
    (dAtA : list Byte.byte) (iNdEx : Z) (shift : N) (acc : A) :
  varint_loop add k dAtA iNdEx shift acc =
    if decide (64 ≤ shift)%N then Done (inl ErrIntOverflowConfig)
    else if decide (len dAtA ≤ iNdEx) then Done (inl io_ErrUnexpectedEOF)
    else
      b ← load dAtA iNdEx;
      if decide (Byte.to_N b < 0x80)%N
      then Done (inr (add acc (Byte.to_N b) shift, iNdEx + 1))
      else match k with
           | O => OutOfFuel
           | S k => varint_loop add k dAtA (iNdEx + 1) (shift + 7)%N
                      (add acc (Byte.to_N b) shift)
           end.
Proof. by destruct k. Qed.

Lemma varint_loop_uint64_spec (fuel k : nat) (v : N) (pre rest : list Byte.byte)
    (shift acc : N) :
  (N.to_nat (N.log2 v) ≤ fuel)%nat →
  (shift ≤ 63)%N →
  (v < 2 ^ (64 - shift))%N →
  (63 ≤ 7 * N.of_nat k + shift)%N →
  varint_loop add_uint64 k (pre ++ varint_fuel fuel v ++ rest) (len pre) shift acc =
    Done (inr (N.lor acc (N.shiftl v shift), len pre + len (varint_fuel fuel v))).
Proof.
  revert k v pre shift acc.
  assert (Hlast : ∀ k v pre shift acc,
            (shift ≤ 63)%N → (v < 2 ^ (64 - shift))%N → (v < 2 ^ 7)%N →
            varint_loop add_uint64 k (pre ++ [uint8 v] ++ rest) (len pre) shift acc =
              Done (inr (N.lor acc (N.shiftl v shift), len pre + len [uint8 v]))).
  { intros k v pre shift acc Hs Hv H128. rewrite varint_loop_unfold.
    rewrite decide_False by lia.
    rewrite decide_False by (lens; lia).
    simpl. rewrite load_middle. simpl.
    rewrite to_N_uint8, N.mod_small by lia.
    rewrite decide_True by lia.
    unfold add_uint64, uint64. rewrite low_group_small by lia.
    rewrite N.mod_small by (apply shiftl_lt_pow2; [lia|done]).
    done. }
  induction fuel as [|fuel IH]; intros k v pre shift acc Hf Hs Hv Hk; cbn [varint_fuel];
    destruct (decide (2 ^ 7 ≤ v)%N) as [H128|H128];
    [by destruct (log2_fuel_pos v)|apply Hlast; lia| |apply Hlast; lia].
  rewrite varint_loop_unfold.
  rewrite decide_False by lia.
  rewrite decide_False by (lens; lia).
  simpl. rewrite load_middle. simpl.
  destruct (continuation_byte v) as ([Hlo Hhi] & Hland).
  rewrite to_N_uint8, N.mod_small by lia.
  rewrite decide_False by lia.
  assert (7 ≤ N.log2 v)%N as Hlog by (apply N.log2_le_pow2; lia).
  assert (N.log2 v < 64 - shift)%N as Hlog2 by (apply N.log2_lt_pow2; [lia|done]).
  destruct k as [|k]; [lia|].
  replace (len pre + 1) with (len (pre ++ [uint8 (N.lor (N.land v 127) 128)]))
    by (lens; lia).
  rewrite (cons_middle _ pre). rewrite app_assoc.
  rewrite IH.
  - unfold add_uint64, uint64. rewrite Hland.
    rewrite N.mod_small.
    2:{ apply shiftl_lt_pow2; [lia|].
        eapply N.lt_le_trans; [apply low_group_lt|].
        change 128%N with (2 ^ 7)%N. apply N.pow_le_mono_r; lia. }
    rewrite <- N.lor_assoc, join_groups.
    do 3 f_equal. lens. lia.
  - by apply log2_shiftr_fuel.
  - lia.
  - rewrite N.shiftr_div_pow2.
    apply N.Div0.div_lt_upper_bound.
    rewrite <- N.pow_add_r. replace (7 + (64 - (shift + 7)))%N with (64 - shift)%N by lia.
    done.
  - lia.
Qed.

Lemma read_uint64_varint (v : N) (pre rest : list Byte.byte) :
  (v < 2 ^ 64)%N →
  read_uint64 (pre ++ varint v ++ rest) (len pre) = Done (inr (v, len pre + len (varint v))).
Proof.
  intros Hv. unfold read_uint64, varint.
  rewrite varint_loop_uint64_spec; [|done|done|done|done].
  by rewrite N.shiftl_0_r.
Qed.

Lemma length_list_byte_of_string (s : string) :
  length (String.list_byte_of_string s) = String.length s.
Proof.
  induction s as [|c s IH]; [done|].
  change (String.list_byte_of_string (String c s))
    with (Ascii.byte_of_ascii c :: String.list_byte_of_string s).
  simpl. by rewrite IH.
Qed.

Lemma copy_spec (pre src junk : list Byte.byte) :
  len src ≤ len junk →
  copy (pre ++ junk) (len pre) src = Done (pre ++ src ++ drop (length src) junk, len src).
Proof.
  intros Hroom. unfold copy.
  rewrite decide_True by (lens; lia).
  rewrite Z.min_r by (lens; lia).
  f_equal. f_equal.
  unfold len. rewrite !Nat2Z.id.
  rewrite take_app_length. f_equal.
  rewrite firstn_all. f_equal.
  replace (Z.to_nat (Z.of_nat (length pre) + Z.of_nat (length src)))
    with (length pre + length src)%nat by lia.
  by rewrite drop_app_add'.
Qed.

Lemma sovConfig_varint (v : N) : sovConfig v = len (varint v).
Proof. unfold sovConfig, varint. by rewrite sovConfig_loop_spec. Qed.

Lemma encodeVarintConfig_spec (v : N) (pre junk : list Byte.byte) :
  len (varint v) ≤ len junk →
  encodeVarintConfig (pre ++ junk) (len pre) v =
    Done (pre ++ varint v ++ drop (length (varint v)) junk, len pre + len (varint v)).
Proof. intros H. unfold encodeVarintConfig, varint. by apply encodeVarintConfig_loop_spec. Qed.

Lemma marshal_field_spec (tag : Byte.byte) (s : string) (pre junk : list Byte.byte) :
  len (encode_field tag s) ≤ len junk →
  marshal_field tag s (pre ++ junk) (len pre) =
    Done (pre ++ encode_field tag s ++ drop (length (encode_field tag s)) junk,
          len pre + len (encode_field tag s)).
Proof.
  unfold marshal_field, encode_field. intros Hroom.
  case_decide as Hs.
  2:{ simpl. rewrite drop_0. do 2 f_equal. lens. lia. }
  destruct junk as [|x junk]; [lens; lia|].
  rewrite store_middle. simpl.
  replace (len pre + 1) with (len (pre ++ [tag])) by (lens; lia).
  rewrite (cons_middle _ pre junk), app_assoc.
  rewrite encodeVarintConfig_spec by (lens; rewrite ?length_app in *; lia).
  simpl.
  replace (len (pre ++ [tag]) + len (varint (Z.to_N (len_string s))))
    with (len ((pre ++ [tag]) ++ varint (Z.to_N (len_string s)))) by (lens; lia).
  rewrite (app_assoc (pre ++ [tag])).
  rewrite copy_spec.
  2:{ lens. rewrite ?length_app, ?length_drop in *. lia. }
  simpl. rewrite <- !app_assoc. simpl.
  do 2 f_equal.
  - do 3 f_equal. rewrite drop_drop. by rewrite length_app.
  - lens. rewrite !length_app. lia.
Qed.

Lemma encode_field_length (tag : Byte.byte) (s : string) :
  len (encode_field tag s) =
    if decide (0 < len_string s)
    then 1 + len_string s + sovConfig (Z.to_N (len_string s)) else 0.
Proof.
  unfold encode_field. case_decide; [|done].
  rewrite sovConfig_varint. lens. rewrite length_app, length_list_byte_of_string.
  unfold len_string. lia.
Qed.

Lemma int_small (z : Z) : - 2 ^ 63 ≤ z < 2 ^ 63 → int z = z.
Proof. intros H. unfold int. rewrite Z.mod_small; lia. Qed.

Lemma size_field_spec (tag : Byte.byte) (s : string) (n : Z) :
  0 ≤ n → n + len (encode_field tag s) < 2 ^ 63 →
  size_field s n = n + len (encode_field tag s).
Proof.
  intros Hn Hb. unfold size_field. rewrite encode_field_length in *.
  case_decide; [|lia]. apply int_small. 
  pose proof (len_nonneg (varint (Z.to_N (len_string s)))).
  rewrite sovConfig_varint in *. lia.
Qed.

Lemma encode_length (m : Params) :
  len (encode m) =
    len (encode_field Byte.x0a (ServiceId m)) + len (encode_field Byte.x12 (SystemUrl m))
    + len (encode_field Byte.x1a (BackendUrl m)) + len (encode_field Byte.x22 (AccessToken m))
    + len (encode_field Byte.x2a (ServiceToken m)).
Proof. unfold encode. rewrite !len_app. lia. Qed.

Lemma Size_spec (m : Params) : len (encode m) < 2 ^ 63 → Size m = len (encode m).
Proof.
  intros Hb. rewrite encode_length in *. unfold Size. cbv zeta.
  pose proof (len_nonneg (encode_field Byte.x0a (ServiceId m))).
  pose proof (len_nonneg (encode_field Byte.x12 (SystemUrl m))).
  pose proof (len_nonneg (encode_field Byte.x1a (BackendUrl m))).
  pose proof (len_nonneg (encode_field Byte.x22 (AccessToken m))).
  pose proof (len_nonneg (encode_field Byte.x2a (ServiceToken m))).
  rewrite (size_field_spec Byte.x0a (ServiceId m)) by lia.
  rewrite (size_field_spec Byte.x12 (SystemUrl m)) by lia.
  rewrite (size_field_spec Byte.x1a (BackendUrl m)) by lia.
  rewrite (size_field_spec Byte.x22 (AccessToken m)) by lia.
  rewrite (size_field_spec Byte.x2a (ServiceToken m)) by lia.
  lia.
Qed.

Lemma MarshalTo_spec (m : Params) (junk : list Byte.byte) :
  len (encode m) ≤ len junk →
  MarshalTo m junk = Done (encode m ++ drop (length (encode m)) junk, len (encode m), None).
Proof.
  intros Hroom. rewrite encode_length in Hroom. unfold MarshalTo.
  pose proof (len_nonneg (encode_field Byte.x0a (ServiceId m))).
  pose proof (len_nonneg (encode_field Byte.x12 (SystemUrl m))).
  pose proof (len_nonneg (encode_field Byte.x1a (BackendUrl m))).
  pose proof (len_nonneg (encode_field Byte.x22 (AccessToken m))).
  pose proof (len_nonneg (encode_field Byte.x2a (ServiceToken m))).
  assert (Hstep : ∀ tag s pre junk
                    (k : list Byte.byte * Z → outcome (list Byte.byte * Z * option error)),
    len (encode_field tag s) ≤ len junk →
    marshal_field tag s (pre ++ junk) (len pre) ≫= k =
      k (((pre ++ encode_field tag s) ++ drop (length (encode_field tag s)) junk),
         len (pre ++ encode_field tag s))).
  { intros tag s pre junk' k Hr. rewrite marshal_field_spec by done.
    simpl. rewrite len_app, <- app_assoc. done. }
  change junk with ([] ++ junk) at 1. change 0 with (len []).
  rewrite Hstep by lia. cbn beta iota.
  rewrite Hstep by (lens; rewrite length_drop; lia). cbn beta iota.
  rewrite Hstep by (lens; rewrite !length_drop; lia). cbn beta iota.
  rewrite Hstep by (lens; rewrite !length_drop; lia). cbn beta iota.
  rewrite Hstep by (lens; rewrite !length_drop; lia). cbn beta iota.
  unfold encode. simpl. rewrite !drop_drop, <- !app_assoc.
  by rewrite !length_app.
Qed.

Lemma slice_prefix (xs ys : list Byte.byte) :
  slice (xs ++ ys) 0 (len xs) = Done xs.
Proof.
  unfold slice. rewrite decide_True by (lens; lia).
  f_equal. simpl. rewrite drop_0, Z.sub_0_r. unfold len. rewrite Nat2Z.id.
  by rewrite take_app_length.
Qed.

Lemma Marshal_spec (m : Params) :
  len (encode m) < 2 ^ 63 → Marshal m = Done (Some (encode m), None).
Proof.
  intros Hb. unfold Marshal. rewrite Size_spec by done.
  rewrite decide_False by (pose proof (len_nonneg (encode m)); lia).
  rewrite MarshalTo_spec by (lens; rewrite length_replicate; lia).
  simpl. by rewrite slice_prefix.
Qed.

Lemma read_uint64_byte (b : Byte.byte) (pre post : list Byte.byte) :
  (Byte.to_N b < 128)%N →
  read_uint64 (pre ++ b :: post) (len pre) = Done (inr (Byte.to_N b, len pre + 1)).
Proof.
  intros Hb. unfold read_uint64. rewrite varint_loop_unfold.
  rewrite decide_False by lia.
  rewrite decide_False by (lens; lia).
  rewrite load_middle. simpl.
  rewrite decide_True by done.
  unfold add_uint64, uint64. rewrite low_group_small by done.
  rewrite N.shiftl_0_r, N.mod_small by lia. done.
Qed.

Lemma slice_middle (pre xs post : list Byte.byte) :
  slice (pre ++ xs ++ post) (len pre) (len pre + len xs) = Done xs.
Proof.
  unfold slice. rewrite decide_True by (lens; rewrite ?length_app; lia).
  f_equal. unfold len. rewrite Nat2Z.id.
  rewrite drop_app_length.
  replace (Z.to_nat (Z.of_nat (length pre) + Z.of_nat (length xs) - Z.of_nat (length pre)))
    with (length xs) by lia.
  by rewrite take_app_length.
Qed.

Lemma len_string_bytes (s : string) : len (String.list_byte_of_string s) = len_string s.
Proof. unfold len, len_string. by rewrite length_list_byte_of_string. Qed.

Lemma string_field_spec (name : string) (set : Params → string → Params) (m : Params)
    (pre rest : list Byte.byte) (s : string) :
  len (pre ++ varint (Z.to_N (len_string s)) ++ String.list_byte_of_string s ++ rest)
    < 2 ^ 63 →
  string_field name set m
    (pre ++ varint (Z.to_N (len_string s)) ++ String.list_byte_of_string s ++ rest)
    2 (len pre) =
    Done (Next (set m s)
            (len pre + len (varint (Z.to_N (len_string s))) + len_string s)).
Proof.
  intros Hb. unfold string_field.
  rewrite decide_False by (intros H; by apply H).
  assert (0 ≤ len_string s) as Hs0 by (unfold len_string; lia).
  pose proof (len_nonneg pre). pose proof (len_nonneg rest).
  pose proof (len_nonneg (varint (Z.to_N (len_string s)))).
  rewrite read_uint64_varint.
  2:{ rewrite !len_app, len_string_bytes in Hb.
      change (2 ^ 64)%N with (Z.to_N (2 ^ 64)). apply Z2N.inj_lt; lia. }
  cbn [mbind outcome_bind].
  rewrite Z2N.id by done.
  rewrite !len_app, len_string_bytes in *.
  rewrite (int_small (len_string s)) by lia.
  rewrite decide_False by lia.
  rewrite int_small by lia.
  rewrite decide_False by lia.
  rewrite (app_assoc pre).
  replace (len pre + len (varint (Z.to_N (len_string s))))
    with (len (pre ++ varint (Z.to_N (len_string s)))) by (rewrite len_app; lia).
  rewrite <- len_string_bytes, slice_middle. simpl.
  by rewrite String.string_of_list_byte_of_string.
Qed.

Lemma Unmarshal_round_tag (tag : Byte.byte) (name : string) (set : Params → string → Params)
    (m : Params) (pre post : list Byte.byte) :
  field tag name set →
  Unmarshal_round m (pre ++ tag :: post) (len pre) =
    string_field name set m (pre ++ tag :: post) 2 (len pre + 1).
Proof.
  intros Hf. unfold Unmarshal_round.
  rewrite read_uint64_byte by (destruct Hf; done).
  destruct Hf; reflexivity.
Qed.

Lemma Unmarshal_round_field (tag : Byte.byte) (name : string)
    (set : Params → string → Params) (m : Params) (pre rest : list Byte.byte) (s : string) :
  field tag name set →
  0 < len_string s →
  len (pre ++ encode_field tag s ++ rest) < 2 ^ 63 →
  Unmarshal_round m (pre ++ encode_field tag s ++ rest) (len pre) =
    Done (Next (set m s) (len pre + len (encode_field tag s))).
Proof.
  intros Hf Hs Hb. unfold encode_field in *. rewrite decide_True in * by done.
  rewrite <- app_comm_cons.
  rewrite (Unmarshal_round_tag tag name set) by done.
  replace (len pre + 1) with (len (pre ++ [tag])) by (lens; lia).
  rewrite (cons_middle tag pre), app_assoc, <- (app_assoc (varint _)).
  rewrite string_field_spec.
  - do 2 f_equal. lens. rewrite !length_app, length_list_byte_of_string.
    unfold len_string. lia.
  - rewrite <- !app_assoc in *. simpl in *. by rewrite <- app_assoc in Hb.
Qed.

Lemma Unmarshal_loop_unfold (fuel : nat) (m : Params) (dAtA : list Byte.byte) (iNdEx : Z) :
  Unmarshal_loop fuel m dAtA iNdEx =
    if decide (iNdEx < len dAtA) then
      match fuel with
      | O => OutOfFuel
      | S fuel =>
          r ← Unmarshal_round m dAtA iNdEx;
          match r with
          | Return m err => Done (m, err)
          | Next m iNdEx => Unmarshal_loop fuel m dAtA iNdEx
          end
      end
    else if decide (len dAtA < iNdEx) then Done (m, Some io_ErrUnexpectedEOF)
    else Done (m, None).
Proof. by destruct fuel. Qed.

Lemma loop_gives_end (m : Params) (dAtA : list Byte.byte) :
  loop_gives m dAtA (len dAtA) (Done (m, None)).
Proof.
  intros fuel _. rewrite Unmarshal_loop_unfold.
  rewrite decide_False by lia. by rewrite decide_False by lia.
Qed.

Lemma loop_gives_round (m m' : Params) (dAtA : list Byte.byte) (i i' : Z)
    (r : outcome (Params * option error)) :
  i < len dAtA → i < i' →
  Unmarshal_round m dAtA i = Done (Next m' i') →
  loop_gives m' dAtA i' r →
  loop_gives m dAtA i r.
Proof.
  intros Hi Hi' Hround Hrest fuel Hfuel. rewrite Unmarshal_loop_unfold.
  rewrite decide_True by done.
  destruct fuel as [|fuel]; [lia|].
  rewrite Hround. simpl. apply Hrest. lia.
Qed.

Lemma encode_field_empty (tag : Byte.byte) (s : string) :
  ¬ 0 < len_string s → encode_field tag s = [].
Proof. intros H. unfold encode_field. by rewrite decide_False. Qed.

Lemma encode_field_nonempty (tag : Byte.byte) (s : string) :
  0 < len_string s → 0 < len (encode_field tag s).
Proof. intros H. unfold encode_field. rewrite decide_True by done. lens. lia. Qed.

Lemma loop_gives_field (tag : Byte.byte) (name : string) (set : Params → string → Params)
    (m : Params) (pre rest : list Byte.byte) (s : string)
    (r : outcome (Params * option error)) :
  field tag name set →
  len (pre ++ encode_field tag s ++ rest) < 2 ^ 63 →
  loop_gives (if decide (0 < len_string s) then set m s else m)
    ((pre ++ encode_field tag s) ++ rest) (len (pre ++ encode_field tag s)) r →
  loop_gives m (pre ++ encode_field tag s ++ rest) (len pre) r.
Proof.
  intros Hf Hb Hrest. case_decide as Hs.
  - pose proof (encode_field_nonempty tag s Hs).
    eapply loop_gives_round; [| |by apply (Unmarshal_round_field tag name set)|].
    + rewrite !len_app. pose proof (len_nonneg rest). lia.
    + lia.
    + rewrite app_assoc, <- len_app. done.
  - rewrite encode_field_empty in * by done. by rewrite app_nil_r in Hrest.
Qed.

Lemma Unmarshal_encode (m0 m : Params) :
  len (encode m) < 2 ^ 63 →
  Unmarshal m0 (encode m) = Done (merge m0 m, None).
Proof.
  intros Hb. unfold Unmarshal.
  assert (loop_gives m0 (encode m) 0 (Done (merge m0 m, None))) as H;
    [|apply H; unfold len; lia].
  unfold encode in *.
  set (f1 := encode_field Byte.x0a (ServiceId m)) in *.
  set (f2 := encode_field Byte.x12 (SystemUrl m)) in *.
  set (f3 := encode_field Byte.x1a (BackendUrl m)) in *.
  set (f4 := encode_field Byte.x22 (AccessToken m)) in *.
  set (f5 := encode_field Byte.x2a (ServiceToken m)) in *.
  change (loop_gives m0 ([] ++ f1 ++ f2 ++ f3 ++ f4 ++ f5) (len []) (Done (merge m0 m, None))).
  eapply loop_gives_field; [constructor|done|].
  eapply loop_gives_field; [constructor|by rewrite <- app_assoc|].
  eapply loop_gives_field; [constructor|by rewrite <- !app_assoc|].
  eapply loop_gives_field; [constructor|by rewrite <- !app_assoc|].
  rewrite <- (app_nil_r f5) at 1.
  eapply loop_gives_field; [constructor|by rewrite app_nil_r, <- !app_assoc|].
  rewrite app_nil_r.
  replace (merge m0 m) with
    (let m1 := if decide (0 < len_string (ServiceId m)) then with_ServiceId m0 (ServiceId m) else m0 in
     let m2 := if decide (0 < len_string (SystemUrl m)) then with_SystemUrl m1 (SystemUrl m) else m1 in
     let m3 := if decide (0 < len_string (BackendUrl m)) then with_BackendUrl m2 (BackendUrl m) else m2 in
     let m4 := if decide (0 < len_string (AccessToken m)) then with_AccessToken m3 (AccessToken m) else m3 in
     if decide (0 < len_string (ServiceToken m)) then with_ServiceToken m4 (ServiceToken m) else m4).
  - apply loop_gives_end.
  - unfold merge. destruct m0, m. simpl. repeat case_decide; reflexivity.
Qed.

Lemma varint_fuel_length (fuel : nat) (v : N) :
  (N.to_nat (N.log2 v) ≤ fuel)%nat →
  len (varint_fuel fuel v) = Z.of_N (N.log2 v / 7) + 1.
Proof.
  revert v. induction fuel as [|fuel IH]; intros v Hf; cbn [varint_fuel];
    destruct (decide (2 ^ 7 ≤ v)%N) as [H128|H128].
  - by destruct (log2_fuel_pos v).
  - rewrite N.div_small; [done|].
    destruct (decide (v = 0%N)) as [->|]; [done|]. apply N.log2_lt_pow2; lia.
  - rewrite len_cons, IH by (by apply log2_shiftr_fuel).
    rewrite N.log2_shiftr.
    assert (7 ≤ N.log2 v)%N as Hlog by (apply N.log2_le_pow2; lia).
    replace (N.log2 v) with ((N.log2 v - 7) + 1 * 7)%N at 2 by lia.
    rewrite N.div_add by done.
    generalize ((N.log2 v - 7) `div` 7)%N. intros q. lia.
  - rewrite N.div_small; [done|].
    destruct (decide (v = 0%N)) as [->|]; [done|]. apply N.log2_lt_pow2; lia.
Qed.

Lemma varint_length (v : N) : len (varint v) = Z.of_N (N.log2 v / 7) + 1.
Proof. unfold varint. by apply varint_fuel_length. Qed.

Lemma varint_length_bounds (v : N) : (v < 2 ^ 64)%N → 1 ≤ len (varint v) ≤ 10.
Proof.
  intros Hv. rewrite varint_length.
  assert (N.log2 v < 64)%N as Hlog.
  { destruct (decide (v = 0%N)) as [->|]; [done|]. apply N.log2_lt_pow2; lia. }
  assert (N.log2 v / 7 ≤ 63 / 7)%N by (apply N.Div0.div_le_mono; lia).
  change (63 / 7)%N with 9%N in *.
  revert H. generalize (N.log2 v / 7)%N. intros q Hq. lia.
Qed.

Lemma encode_field_bound (tag : Byte.byte) (s : string) :
  len_string s < 2 ^ 63 → len (encode_field tag s) ≤ len_string s + 11.
Proof.
  intros Hs. rewrite encode_field_length. case_decide; [|unfold len_string; lia].
  rewrite sovConfig_varint.
  assert (Z.to_N (len_string s) < 2 ^ 64)%N
    by (change (2 ^ 64)%N with (Z.to_N (2 ^ 64)); apply Z2N.inj_lt; lia).
  pose proof (varint_length_bounds (Z.to_N (len_string s))). lia.
Qed.

Lemma encode_bound (m : Params) : total_length m < 2 ^ 62 → len (encode m) < 2 ^ 63.
Proof.
  unfold total_length. intros Hb. rewrite encode_length.
  assert (∀ s, 0 ≤ len_string s) as Hnn by (intros; unfold len_string; lia).
  pose proof (Hnn (ServiceId m)). pose proof (Hnn (SystemUrl m)).
  pose proof (Hnn (BackendUrl m)). pose proof (Hnn (AccessToken m)).
  pose proof (Hnn (ServiceToken m)).
  pose proof (encode_field_bound Byte.x0a (ServiceId m)).
  pose proof (encode_field_bound Byte.x12 (SystemUrl m)).
  pose proof (encode_field_bound Byte.x1a (BackendUrl m)).
  pose proof (encode_field_bound Byte.x22 (AccessToken m)).
  pose proof (encode_field_bound Byte.x2a (ServiceToken m)).
  lia.
Qed.

Lemma len_string_zero (s : string) : ¬ 0 < len_string s → s = "".
Proof. destruct s; [done|]. unfold len_string. simpl. lia. Qed.

Lemma merge_zero (m : Params) : merge zero m = m.
Proof.
  destruct m as [a b c d e]. unfold merge, zero. cbn [ServiceId SystemUrl BackendUrl AccessToken ServiceToken].
  f_equal; case_decide as H; try done; symmetry; by apply len_string_zero.
Qed.

Lemma encodeVarintConfig_loop_short (fuel : nat) (v : N) (pre junk : list Byte.byte) :
  (N.to_nat (N.log2 v) ≤ fuel)%nat →
  len junk < len (varint_fuel fuel v) →
  encodeVarintConfig_loop fuel (pre ++ junk) (len pre) v = Crash.
Proof.
  revert v pre junk. induction fuel as [|fuel IH]; intros v pre junk Hf Hroom;
    cbn [encodeVarintConfig_loop varint_fuel] in *;
    destruct (decide (2 ^ 7 ≤ v)%N) as [H128|H128].
  - by destruct (log2_fuel_pos v).
  - destruct junk as [|x junk]; [|lens; lia].
    rewrite app_nil_r, store_full by done. done.
  - destruct junk as [|x junk]; [by rewrite app_nil_r, store_full|].
    rewrite store_middle. simpl.
    replace (len pre + 1) with (len (pre ++ [uint8 (N.lor (N.land v 127) 128)]))
      by (lens; lia).
    rewrite (cons_middle _ pre junk), app_assoc.
    apply IH; [by apply log2_shiftr_fuel|lens; lia].
  - destruct junk as [|x junk]; [|lens; lia].
    rewrite app_nil_r, store_full by done. done.
Qed.

Lemma int_high (z : Z) : 2 ^ 63 ≤ z < 2 ^ 64 + 2 ^ 63 → int z = z - 2 ^ 64.
Proof.
  intros H. unfold int.
  replace (z + 2 ^ 63) with ((z - 2 ^ 63) + 1 * 2 ^ 64) by lia.
  rewrite Z.mod_add by done. rewrite Z.mod_small; lia.
Qed.

Lemma Unmarshal_first_round (m : Params) (dAtA : list Byte.byte) (r : round) :
  0 < len dAtA →
  Unmarshal_round m dAtA 0 = Done r →
  Unmarshal m dAtA =
    match r with
    | Return m err => Done (m, err)
    | Next m iNdEx => Unmarshal_loop (pred (length dAtA)) m dAtA iNdEx
    end.
Proof.
  intros Hl Hr. unfold Unmarshal. rewrite Unmarshal_loop_unfold.
  rewrite decide_True by done.
  destruct (length dAtA) as [|n] eqn:Hn; [unfold len in Hl; lia|].
  by rewrite Hr.
Qed.

Lemma string_field_declared (name : string) (set : Params → string → Params) (m : Params)
    (pre : list Byte.byte) (L : N) (rest : list Byte.byte) :
  (L < 2 ^ 63)%N →
  string_field name set m (pre ++ varint L ++ rest) 2 (len pre) =
    if decide (len (pre ++ varint L ++ rest)
               < int (len pre + len (varint L) + Z.of_N L))
    then Done (Return m (Some io_ErrUnexpectedEOF))
    else
      bs ← slice (pre ++ varint L ++ rest) (len pre + len (varint L))
             (int (len pre + len (varint L) + Z.of_N L));
      Done (Next (set m (String.string_of_list_byte bs))
              (int (len pre + len (varint L) + Z.of_N L))).
Proof.
  intros HL. unfold string_field.
  rewrite decide_False by (intros H; by apply H).
  rewrite read_uint64_varint by lia.
  cbn [mbind outcome_bind].
  rewrite (int_small (Z.of_N L)) by lia.
  rewrite decide_False by lia.
  done.
Qed.

Lemma log2_huge (L : N) : (2 ^ 63 - 10 ≤ L < 2 ^ 63)%N → N.log2 L = 62%N.
Proof. intros H. apply (N.log2_unique' L 62 (L - 2 ^ 62)); lia. Qed.

(** ** Properties of the generated code *)

(** X1. [sovConfig x] is the number of 7-bit groups of [x]: the position of
    its highest bit divided by 7, plus one. For a 64-bit value it lies between
    1 and 10. *)
Theorem sovConfig_closed_form (x : N) :
  sovConfig x = Z.of_N (N.log2 x / 7) + 1
  ∧ ((x < 2 ^ 64)%N → 1 ≤ sovConfig x ≤ 10).
Proof.
  rewrite sovConfig_varint. split; [apply varint_length|apply varint_length_bounds].
Qed.

(** X2. [encodeVarintConfig] writes [sovConfig v] bytes at the offset and
    returns the offset after them; the bytes before the offset and those
    after the varint are left as they were. With fewer than [sovConfig v]
    bytes of room after the offset it panics on an index out of range. *)
Theorem encodeVarintConfig_in_place (v : N) (pre junk : list Byte.byte) :
  (sovConfig v ≤ len junk →
   ∃ written,
     encodeVarintConfig (pre ++ junk) (len pre) v =
       Done (pre ++ written ++ drop (Z.to_nat (sovConfig v)) junk, len pre + sovConfig v)
     ∧ len written = sovConfig v)
  ∧ (len junk < sovConfig v → encodeVarintConfig (pre ++ junk) (len pre) v = Crash).
Proof.
  rewrite sovConfig_varint. split; intros Hroom.
  - exists (varint v). split; [|done].
    rewrite encodeVarintConfig_spec by done. unfold len. by rewrite Nat2Z.id.
  - unfold encodeVarintConfig. by apply encodeVarintConfig_loop_short.
Qed.

(** X3. The varint loop of [Unmarshal] reads back what
    [encodeVarintConfig] wrote: for every 64-bit [v], reading at the offset
    where [v] was encoded gives [v] and the offset that the encoder
    returned. *)
Theorem read_uint64_encodeVarintConfig (v : N) (pre junk dAtA : list Byte.byte) (offset : Z) :
  (v < 2 ^ 64)%N →
  encodeVarintConfig (pre ++ junk) (len pre) v = Done (dAtA, offset) →
  read_uint64 dAtA (len pre) = Done (inr (v, offset)).
Proof.
  intros Hv Henc.
  destruct (decide (len (varint v) ≤ len junk)) as [Hroom|Hroom].
  - rewrite encodeVarintConfig_spec in Henc by done.
    injection Henc as <- <-. by apply read_uint64_varint.
  - unfold encodeVarintConfig in Henc.
    rewrite encodeVarintConfig_loop_short in Henc; [done|done|]. unfold varint in Hroom. lia.
Qed.

(** X4. For a message whose strings have a total length below 2^62,
    [Marshal] returns a slice and a nil error, it does not panic, and the
    slice has exactly [Size] bytes. *)
Theorem Marshal_length_is_Size (m : Params) :
  total_length m < 2 ^ 62 →
  ∃ dAtA, Marshal m = Done (Some dAtA, None) ∧ len dAtA = Size m.
Proof.
  intros Hb%encode_bound. exists (encode m).
  split; [by apply Marshal_spec|]. by rewrite Size_spec.
Qed.

(** X5. Round trip: decoding the bytes of [Marshal m] into a zero
    [Params] gives [m] back, with a nil error. *)
Theorem Unmarshal_Marshal_round_trip (m : Params) :
  total_length m < 2 ^ 62 →
  ∃ dAtA, Marshal m = Done (Some dAtA, None) ∧ Unmarshal zero dAtA = Done (m, None).
Proof.
  intros Hb%encode_bound. exists (encode m).
  split; [by apply Marshal_spec|]. rewrite Unmarshal_encode by done. by rewrite merge_zero.
Qed.

(** X6. [Unmarshal] does not reset its receiver: decoding the bytes of
    [Marshal m] into [m0] replaces the fields that [m] sets and keeps those of
    [m0] where [m] has the empty string (which is not encoded). *)
Theorem Unmarshal_keeps_unset_fields (m0 m : Params) :
  total_length m < 2 ^ 62 →
  ∃ dAtA,
    Marshal m = Done (Some dAtA, None)
    ∧ Unmarshal m0 dAtA =
        Done ({| ServiceId := if decide (ServiceId m = "") then ServiceId m0 else ServiceId m;
                 SystemUrl := if decide (SystemUrl m = "") then SystemUrl m0 else SystemUrl m;
                 BackendUrl := if decide (BackendUrl m = "") then BackendUrl m0 else BackendUrl m;
                 AccessToken :=
                   if decide (AccessToken m = "") then AccessToken m0 else AccessToken m;
                 ServiceToken :=
                   if decide (ServiceToken m = "") then ServiceToken m0 else ServiceToken m |},
              None).
Proof.
  intros Hb%encode_bound. exists (encode m).
  split; [by apply Marshal_spec|]. rewrite Unmarshal_encode by done.
  do 2 f_equal. unfold merge.
  assert (∀ old new : string,
            (if decide (0 < len_string new) then new else old) =
            (if decide (new = "") then old else new)) as Hpick.
  { intros old new. destruct new; [done|].
    rewrite decide_True by (unfold len_string; simpl; lia). by rewrite decide_False. }
  by rewrite !Hpick.
Qed.

Lemma load_Done (dAtA : list Byte.byte) (i : Z) (b : Byte.byte) :
  load dAtA i = Done b → 0 ≤ i < len dAtA.
Proof.
  unfold load. case_decide as Hi; [|done].
  destruct (dAtA !! Z.to_nat i) eqn:Hl; [|done]. intros _.
  apply lookup_lt_Some in Hl. unfold len. lia.
Qed.

Lemma varint_loop_bounds {A : Type} (add : A → N → N → A) (k : nat)
    (dAtA : list Byte.byte) (i : Z) (shift : N) (acc a : A) (i' : Z) :
  varint_loop add k dAtA i shift acc = Done (inr (a, i')) →
  0 ≤ i ∧ i < i' ≤ len dAtA ∧ i' - i ≤ Z.of_nat k + 1.
Proof.
  revert i shift acc. induction k as [|k IH]; intros i shift acc;
    rewrite varint_loop_unfold; repeat case_decide; try done;
    destruct (load dAtA i) as [b| |] eqn:Hload; try done;
    apply load_Done in Hload; cbn [mbind outcome_bind]; case_decide; try done.
  - intros [= <- <-]. lia.
  - intros [= <- <-]. lia.
  - intros Hrec%IH. lia.
Qed.

Lemma Unmarshal_round_Crash (m : Params) (dAtA : list Byte.byte) :
  0 < len dAtA → Unmarshal_round m dAtA 0 = Crash → Unmarshal m dAtA = Crash.
Proof.
  intros Hl Hr. unfold Unmarshal. rewrite Unmarshal_loop_unfold.
  rewrite decide_True by done.
  destruct (length dAtA) as [|n] eqn:Hn; [unfold len in Hl; lia|].
  by rewrite Hr.
Qed.

(** X7. An input that starts with the tag of one of the five string
    fields and a declared length below 2^63 whose end, counted from the index
    after the length, reaches 2^63 makes [Unmarshal] panic: [postIndex] wraps
    to a negative number, passes the test [postIndex > l] and is used as a
    slice bound. *)
Theorem Unmarshal_panics_on_huge_length (tag : Byte.byte) (name : string)
    (set : Params → string → Params) (m : Params) (dAtA : list Byte.byte)
    (stringLen : N) (iNdEx : Z) :
  field tag name set →
  dAtA !! 0%nat = Some tag →
  read_uint64 dAtA 1 = Done (inr (stringLen, iNdEx)) →
  (stringLen < 2 ^ 63)%N →
  2 ^ 63 ≤ iNdEx + Z.of_N stringLen →
  Unmarshal m dAtA = Crash.
Proof.
  intros Hf Htag Hread HL Hbig.
  destruct dAtA as [|x tl]; [done|]. injection Htag as ->.
  pose proof (varint_loop_bounds _ _ _ _ _ _ _ _ Hread) as (_ & Hi & Hk).
  apply Unmarshal_round_Crash; [lens; lia|].
  change (Unmarshal_round m (tag :: tl) 0)
    with (Unmarshal_round m ([] ++ tag :: tl) (len [])).
  rewrite (Unmarshal_round_tag tag name set m [] tl Hf).
  unfold string_field.
  rewrite decide_False by (intros H; by apply H).
  change (len [] + 1) with 1. change ([] ++ tag :: tl) with (tag :: tl).
  rewrite Hread. cbn [mbind outcome_bind].
  rewrite (int_small (Z.of_N stringLen)) by lia.
  rewrite decide_False by lia.
  rewrite int_high by lia.
  rewrite decide_False by lia.
  unfold slice. rewrite decide_False by lia. done.
Qed.

(** X8. An input that starts with the tag of one of the five string
    fields and declares more bytes than follow is answered with
    [io.ErrUnexpectedEOF], and the receiver is left as it was. *)
Theorem Unmarshal_truncated_field (tag : Byte.byte) (name : string)
    (set : Params → string → Params) (m : Params) (dAtA : list Byte.byte)
    (stringLen : N) (iNdEx : Z) :
  field tag name set →
  dAtA !! 0%nat = Some tag →
  read_uint64 dAtA 1 = Done (inr (stringLen, iNdEx)) →
  len dAtA < iNdEx + Z.of_N stringLen < 2 ^ 63 →
  Unmarshal m dAtA = Done (m, Some io_ErrUnexpectedEOF).
Proof.
  intros Hf Htag Hread HL.
  destruct dAtA as [|x tl]; [done|]. injection Htag as ->.
  pose proof (varint_loop_bounds _ _ _ _ _ _ _ _ Hread) as (_ & Hi & Hk).
  rewrite (Unmarshal_first_round m _ (Return m (Some io_ErrUnexpectedEOF))); [done|lens; lia|].
  change (Unmarshal_round m (tag :: tl) 0)
    with (Unmarshal_round m ([] ++ tag :: tl) (len [])).
  rewrite (Unmarshal_round_tag tag name set m [] tl Hf).
  unfold string_field.
  rewrite decide_False by (intros H; by apply H).
  change (len [] + 1) with 1. change ([] ++ tag :: tl) with (tag :: tl).
  rewrite Hread. cbn [mbind outcome_bind].
  rewrite (int_small (Z.of_N stringLen)) by lia.
  rewrite decide_False by lia.
  rewrite int_small by lia.
  by rewrite decide_True by lia.
Qed.

End Codec.

(** * The codec at concrete inputs *)

Lemma encodeVarintConfig_in_place_witness :
  (∃ written,
     config.encodeVarintConfig ([Byte.x07] ++ replicate 3 Byte.xff) 1 300 =
       config.Done ([Byte.x07] ++ written ++ [Byte.xff], 1 + config.sovConfig 300)
     ∧ config.len written = config.sovConfig 300)
  ∧ config.encodeVarintConfig ([Byte.x07] ++ [Byte.xff]) 1 300 = config.Crash.
Proof.
  split.
  - apply (proj1 (encodeVarintConfig_in_place 300 [Byte.x07] (replicate 3 Byte.xff))).
    vm_compute. discriminate.
  - apply (proj2 (encodeVarintConfig_in_place 300 [Byte.x07] [Byte.xff])).
    reflexivity.
Defined.

Lemma read_uint64_encodeVarintConfig_witness :
  config.encodeVarintConfig ([Byte.x07] ++ replicate 3 Byte.x00) 1 300 =
    config.Done ([Byte.x07; Byte.xac; Byte.x02; Byte.x00], 3)
  ∧ config.read_uint64 [Byte.x07; Byte.xac; Byte.x02; Byte.x00] 1 =
      config.Done (inr (300%N, 3)).
Proof.
  split; [reflexivity|].
  apply (read_uint64_encodeVarintConfig 300 [Byte.x07] (replicate 3 Byte.x00));
    reflexivity.
Defined.

Lemma Marshal_length_is_Size_witness :
  ∃ dAtA,
    config.Marshal (sample_params "123") = config.Done (Some dAtA, None)
    ∧ config.len dAtA = config.Size (sample_params "123").
Proof. apply (Marshal_length_is_Size (sample_params "123")). reflexivity. Defined.

Lemma Unmarshal_Marshal_round_trip_witness :
  ∃ dAtA,
    config.Marshal (sample_params "123") = config.Done (Some dAtA, None)
    ∧ config.Unmarshal config.zero dAtA = config.Done (sample_params "123", None).
Proof. apply (Unmarshal_Marshal_round_trip (sample_params "123")). reflexivity. Defined.

Lemma Unmarshal_keeps_unset_fields_witness :
  ∃ dAtA,
    config.Marshal (mk_Params "" "" "" "token" "") = config.Done (Some dAtA, None)
    ∧ config.Unmarshal (sample_params "123") dAtA =
        config.Done ({| ServiceId := "123"; SystemUrl := "https://example-admin.3scale.net";
                        BackendUrl := ""; AccessToken := "token"; ServiceToken := "" |}, None).
Proof.
  apply (Unmarshal_keeps_unset_fields (sample_params "123") (mk_Params "" "" "" "token" "")).
  reflexivity.
Defined.

Lemma Unmarshal_panics_on_huge_length_witness :
  config.Unmarshal config.zero
    [Byte.x0a; Byte.xff; Byte.xff; Byte.xff; Byte.xff; Byte.xff; Byte.xff; Byte.xff;
     Byte.xff; Byte.x7f] = config.Crash.
Proof.
  apply (Unmarshal_panics_on_huge_length Byte.x0a "ServiceId" with_ServiceId
           config.zero _ (2 ^ 63 - 1)%N 10).
  - constructor.
  - reflexivity.
  - vm_compute. reflexivity.
  - reflexivity.
  - vm_compute. discriminate.
Defined.

Lemma Unmarshal_truncated_field_witness :
  config.Unmarshal (sample_params "123") [Byte.x22; Byte.x05; Byte.x74; Byte.x6f] =
    config.Done (sample_params "123", Some config.io_ErrUnexpectedEOF).
Proof.
  apply (Unmarshal_truncated_field Byte.x22 "AccessToken" config.with_AccessToken
           (sample_params "123") _ 5%N 2).
  - constructor.
  - reflexivity.
  - reflexivity.
  - vm_compute. split; reflexivity.
Defined.
